(** * server.js: credential lifecycle and batch export, verified

    A shallow embedding of [src/server.js]: the in-memory token store, the
    OAuth callback, the refresh of an expired access token, the export of a
    batch of leads and the authentication-status route.  JavaScript values
    are embedded as [jsval]; the handlers are functions in a small
    state-and-exception monad over the world the server touches (the token
    store, the upstream services, the clock). *)

From Stdlib Require Import ZArith String List.
From stdpp Require Import base option list strings gmap fin_maps pretty.

Local Open Scope string_scope.
Local Open Scope list_scope.
#[local] Set Warnings "-register-all".

(** ** JavaScript values *)

Module JS.

(** The values a JSON body can carry, plus [undefined].  Numbers are the
    integers: the code only tests a number for truthiness, and a fraction
    is truthy like any non-zero integer. *)
Inductive jsval : Type :=
| JUndefined
| JNull
| JBool (b : bool)
| JNum (n : Z)
| JStr (s : string)
| JArr (items : list jsval)
| JObj (fields : list (string * jsval)).

(** ToBoolean. *)
Definition truthy (v : jsval) : bool :=
  match v with
  | JUndefined | JNull => false
  | JBool b => b
  | JNum n => negb (n =? 0)%Z
  | JStr s => match s with EmptyString => false | String _ _ => true end
  | JArr _ | JObj _ => true
  end.

(** [a || b] *)
Definition jsor (a b : jsval) : jsval := if truthy a then a else b.

(** [!a] *)
Definition jsnot (a : jsval) : bool := negb (truthy a).

Definition nullish (v : jsval) : bool :=
  match v with
  | JUndefined | JNull => true
  | _ => false
  end.

Definition isArray (v : jsval) : bool :=
  match v with
  | JArr _ => true
  | _ => false
  end.

Definition isString (v : jsval) : bool :=
  match v with
  | JStr _ => true
  | _ => false
  end.

(** Whether the conversion of [v] to a string, as a template literal does
    it, returns.  For an object read from JSON it throws a TypeError
    exactly when the object has an own [toString] key: the value under it
    is not a function and hides [Object.prototype.toString], and [valueOf]
    gives back the object itself.  An array is joined, which converts its
    elements; every other value converts. *)
Fixpoint stringifiable (v : jsval) : bool :=
  match v with
  | JArr items => forallb stringifiable items
  | JObj fields => negb (existsb (λ kv, String.eqb kv.1 "toString") fields)
  | _ => true
  end.

(** The elements of an array value (nothing for any other value). *)
Definition items_of (v : jsval) : list jsval :=
  match v with
  | JArr l => l
  | _ => []
  end.

Fixpoint assoc (k : string) (fs : list (string * jsval)) : jsval :=
  match fs with
  | [] => JUndefined
  | (k', v) :: fs' => if String.eqb k k' then v else assoc k fs'
  end.

(** [v.k] for a [v] that is neither [null] nor [undefined], and for the
    keys this program reads (none of them is on a prototype, an array index
    or [length]): the own property of an object, [undefined] otherwise. *)
Definition prop (v : jsval) (k : string) : jsval :=
  match v with
  | JObj fs => assoc k fs
  | _ => JUndefined
  end.

(** [v?.k] *)
Definition optprop (v : jsval) (k : string) : jsval :=
  if nullish v then JUndefined else prop v k.

End JS.
Export JS.

Infix "|||" := jsor (at level 50, left associativity).

(** ** Exceptions, upstream services, the world *)

(** A thrown error, as far as the handlers look at it: [error.message] and
    [error.response?.data] ([undefined] for an error that is not the
    failure of an HTTP call). *)
Record Exn : Type := mkExn { message : string; response_data : jsval }.

Definition Error (msg : string) : Exn := mkExn msg JUndefined.

(** Reading property [k] of [null] or [undefined]. *)
Definition TypeError (k : string) : Exn :=
  Error ("Cannot read properties of null or undefined (reading '" +:+ k +:+ "')").

(** [response.data] of the token endpoint: the fields the handlers read.
    [expires_in] is the number of seconds the endpoint's contract gives. *)
Module TokenData.
Record t : Type := mk {
  access_token : jsval;
  refresh_token : jsval;
  expires_in : Z;
  locationId : jsval;
  companyId : jsval;
  scope : jsval
}.
End TokenData.

(** A value of [tokenStore]. *)
Record Tokens : Type := mkTokens {
  access_token : jsval;
  refresh_token : jsval;
  expires_at : Z;
  location_id : jsval;
  company_id : jsval;
  scope : jsval
}.

(** The HTTP calls the server makes. *)
Inductive Request : Type :=
| TokenExchange (code : jsval)
| TokenRefresh (refresh_token : jsval)
| LocationsSearch (bearer companyId : jsval)
| CreateContact (contactData bearer locationId : jsval).

Inductive Reply (A : Type) : Type :=
| Resolved (data : A)
| Rejected (error : Exn).
Arguments Resolved {A} data.
Arguments Rejected {A} error.

(** What the server does not control: the [n]-th reading of the clock, and
    the answer of each upstream service to a request, given how many calls
    were made before it. *)
Record Env : Type := mkEnv {
  now_at : nat → Z;
  token_reply : nat → Request → Reply TokenData.t;
  api_reply : nat → Request → Reply jsval
}.

(** What the server changes: the token store, and (as ghost state) the
    upstream calls made so far, oldest first, and the number of clock
    readings. *)
Record World : Type := mkWorld {
  tokenStore : gmap string Tokens;
  calls : list Request;
  ticks : nat
}.

Inductive Completion (A : Type) : Type :=
| Normal (a : A)
| Throw (e : Exn).
Arguments Normal {A} a.
Arguments Throw {A} e.

Definition M (A : Type) : Type := Env → World → World * Completion A.

#[export] Instance M_ret : MRet M := λ A a _ w, (w, Normal a).

#[export] Instance M_bind : MBind M := λ A B f m e w,
  match m e w with
  | (w', Normal a) => f a e w'
  | (w', Throw x) => (w', Throw x)
  end.

Definition throw {A : Type} (x : Exn) : M A := λ _ w, (w, Throw x).

(** [try { body } catch (error) { handler }] *)
Definition try_catch {A : Type} (body : M A) (handler : Exn → M A) : M A :=
  λ e w,
    match body e w with
    | (w', Normal a) => (w', Normal a)
    | (w', Throw x) => handler x e w'
    end.

Definition Date_now : M Z :=
  λ e w, (mkWorld (tokenStore w) (calls w) (S (ticks w)), Normal (now_at e (ticks w))).

Definition tokenStore_get (userId : string) : M (option Tokens) :=
  λ _ w, (w, Normal (tokenStore w !! userId)).

Definition tokenStore_set (userId : string) (v : Tokens) : M unit :=
  λ _ w, (mkWorld (<[userId := v]> (tokenStore w)) (calls w) (ticks w), Normal tt).

Definition tokenStore_delete (userId : string) : M unit :=
  λ _ w, (mkWorld (delete userId (tokenStore w)) (calls w) (ticks w), Normal tt).

Definition upstream {A : Type} (service : Env → nat → Request → Reply A)
    (req : Request) : M A :=
  λ e w,
    let w' := mkWorld (tokenStore w) (calls w ++ [req]) (ticks w) in
    match service e (length (calls w)) req with
    | Resolved data => (w', Normal data)
    | Rejected error => (w', Throw error)
    end.

(** [await axios.post(GHL_CONFIG.tokenUrl, ...)], giving [response.data]. *)
Definition axios_token (req : Request) : M TokenData.t := upstream token_reply req.

(** [await axios.get/post(GHL_CONFIG.apiBaseUrl + ...)], giving [response.data]. *)
Definition axios_api (req : Request) : M jsval := upstream api_reply req.

(** [v.k] where [v] may be [null] or [undefined]. *)
Definition member (v : jsval) (k : string) : M jsval :=
  if nullish v then throw (TypeError k) else mret (prop v k).

(** [o.k] for a store value [o] that may be [undefined]. *)
Definition field (o : option Tokens) (f : Tokens → jsval) (k : string) : M jsval :=
  match o with
  | Some t => mret (f t)
  | None => throw (TypeError k)
  end.

Definition ConversionError : Exn := Error "Cannot convert object to primitive value".

(** [`${v}`], for its effect: the conversion of [v] to a string. *)
Definition template (v : jsval) : M unit :=
  if stringifiable v then mret tt else throw ConversionError.

(** ** HTTP responses *)

Inductive Response : Type :=
| Json (status : Z) (body : jsval)
| Redirect (location_id : jsval).

(** [error.response?.data || error.message] *)
Definition details (error : Exn) : jsval :=
  response_data error ||| JStr (message error).

Definition userId : string := "default_user".

(** ** The handlers *)

(** 7. [refreshAccessToken] *)
Definition refreshAccessToken (userId : string) : M TokenData.t :=
  tokens ← tokenStore_get userId;
  match tokens with
  | None => throw (Error "No refresh token available")
  | Some tokens =>
    if jsnot (refresh_token tokens) then throw (Error "No refresh token available")
    else
      try_catch
        (newTokenData ← axios_token (TokenRefresh (refresh_token tokens));
         now ← Date_now;
         tokenStore_set userId
           {| access_token := TokenData.access_token newTokenData;
              expires_at := (now + TokenData.expires_in newTokenData * 1000)%Z;
              refresh_token :=
                TokenData.refresh_token newTokenData ||| refresh_token tokens;
              location_id := location_id tokens;
              company_id := company_id tokens;
              scope := scope tokens |};;
         mret newTokenData)
        (λ error,
           tokenStore_delete userId;;
           throw (Error "Failed to refresh token"))
  end.

(** 2. [GET /auth/gohighlevel/callback] (the first registration; the second
    one for the same path never receives a request). *)
Definition oauthCallback (code : jsval) : M Response :=
  if jsnot code then
    mret (Json 400 (JObj [("error", JStr "Authorization code not provided")]))
  else
    try_catch
      (tokenData ← axios_token (TokenExchange code);
       now ← Date_now;
       tokenStore_set userId
         {| access_token := TokenData.access_token tokenData;
            refresh_token := TokenData.refresh_token tokenData;
            expires_at := (now + TokenData.expires_in tokenData * 1000)%Z;
            location_id := TokenData.locationId tokenData;
            company_id := TokenData.companyId tokenData;
            scope := TokenData.scope tokenData |};;
       mret (Redirect (TokenData.locationId tokenData)))
      (λ error,
         mret (Json 500 (JObj [("error", JStr "Failed to exchange authorization code");
                               ("details", details error)]))).

(** The steps both token-requiring handlers take once they hold [tokens]
    (lines 115-120 and 189-194): refresh if expired, then read the store
    again. *)
Definition refreshIfExpired (userId : string) (tokens : Tokens) : M (option Tokens) :=
  now ← Date_now;
  (if (now >=? expires_at tokens)%Z
   then refreshAccessToken userId;; mret tt
   else mret tt);;
  tokenStore_get userId.

(** 3. [GET /api/locations] *)
Definition getLocations : M Response :=
  tokens ← tokenStore_get userId;
  match tokens with
  | None => mret (Json 401 (JObj [("error", JStr "User not authenticated")]))
  | Some tokens =>
    try_catch
      (updatedTokens ← refreshIfExpired userId tokens;
       bearer ← field updatedTokens access_token "access_token";
       companyId ← field updatedTokens company_id "company_id";
       data ← axios_api (LocationsSearch bearer companyId);
       locations ← member data "locations";
       current ← field updatedTokens location_id "location_id";
       mret (Json 200 (JObj [("success", JBool true);
                             ("locations", locations ||| JArr []);
                             ("current_location", current)])))
      (λ error,
         mret (Json 500 (JObj [("error", JStr "Failed to fetch locations");
                               ("details", details error)])))
  end.

(** The [contactData] literal of the export loop, for a [lead] whose
    properties can be read. *)
Definition normalize (lead : jsval) : jsval :=
  JObj [("firstName", prop lead "firstName" ||| prop lead "first_name" ||| JStr "");
        ("lastName", prop lead "lastName" ||| prop lead "last_name" ||| JStr "");
        ("email", prop lead "email" ||| JStr "");
        ("phone", prop lead "phone" ||| prop lead "phoneNumber" ||| JStr "");
        ("address1", prop lead "address" ||| prop lead "address1" ||| JStr "");
        ("city", prop lead "city" ||| JStr "");
        ("state", prop lead "state" ||| JStr "");
        ("country", prop lead "country" ||| JStr "US");
        ("postalCode", prop lead "zipCode" ||| prop lead "postalCode" ||| JStr "");
        ("website", prop lead "website" ||| JStr "");
        ("timezone", prop lead "timezone" ||| JStr "America/New_York");
        ("source", JStr "D7 LeadFinder Import");
        ("tags", JArr [JStr "D7Import"; JStr "Lead"])].

(** The body of [for (const lead of leads)]: the value pushed to [results].
    [lead.firstName] is the first property read of the [try] block and
    [lead.email] (in the log line) the first of the [catch] block; each
    throws for a [null] lead, and when it does not, no later read of [lead]
    does.  The log line of the [catch] block also converts [lead.email] to
    a string, before anything is pushed.  (The [Bearer] header converts the
    stored access token, which is a string by the token endpoint's
    contract.) *)
Definition exportLead (updatedTokens : option Tokens) (targetLocationId lead : jsval)
    : M jsval :=
  try_catch
    (member lead "firstName";;
     let contactData := normalize lead in
     bearer ← field updatedTokens access_token "access_token";
     data ← axios_api (CreateContact contactData bearer targetLocationId);
     contact ← member data "contact";
     mret (JObj [("success", JBool true);
                 ("leadId", prop lead "id" ||| prop lead "_id");
                 ("contactId", optprop contact "id");
                 ("email", prop contactData "email")]))
    (λ leadError,
       email ← member lead "email";
       template email;;
       mret (JObj [("success", JBool false);
                   ("leadId", prop lead "id" ||| prop lead "_id");
                   ("email", prop lead "email");
                   ("error", optprop (response_data leadError) "message"
                             ||| JStr (message leadError))])).

Fixpoint exportLoop (updatedTokens : option Tokens) (targetLocationId : jsval)
    (leads results : list jsval) : M (list jsval) :=
  match leads with
  | [] => mret results
  | lead :: rest =>
    r ← exportLead updatedTokens targetLocationId lead;
    exportLoop updatedTokens targetLocationId rest (results ++ [r])
  end.

Definition successCount (results : list jsval) : nat :=
  length (filter (λ r, truthy (prop r "success") = true) results).

Definition failureCount (results : list jsval) : nat :=
  length (filter (λ r, jsnot (prop r "success") = true) results).

Definition JNat (n : nat) : jsval := JNum (Z.of_nat n).

(** The body of the export's [res.json]. *)
Definition exportReport (results : list jsval) (total : nat) : jsval :=
  JObj [("success", JBool true);
        ("message", JStr ("Exported " +:+ pretty (successCount results)
                          +:+ " leads successfully, "
                          +:+ pretty (failureCount results) +:+ " failed"));
        ("results", JArr results);
        ("summary", JObj [("total", JNat total);
                          ("success", JNat (successCount results));
                          ("failed", JNat (failureCount results))])].

(** 5. [POST /api/export-leads], for a parsed body [{ leads, locationId }]. *)
Definition exportLeads (leads locationId : jsval) : M Response :=
  tokens ← tokenStore_get userId;
  match tokens with
  | None => mret (Json 401 (JObj [("error", JStr "User not authenticated")]))
  | Some tokens =>
    if jsnot leads || negb (isArray leads) || (length (items_of leads) =? 0)%nat then
      mret (Json 400 (JObj [("error", JStr "No leads provided")]))
    else
      try_catch
        (updatedTokens ← refreshIfExpired userId tokens;
         targetLocationId ←
           (if truthy locationId then mret locationId
            else field updatedTokens location_id "location_id");
         results ← exportLoop updatedTokens targetLocationId (items_of leads) [];
         mret (Json 200 (exportReport results (length (items_of leads)))))
        (λ error,
           mret (Json 500 (JObj [("error", JStr "Failed to export leads");
                                 ("details", details error)])))
  end.

(** The same route from [req.body]: [const { leads, locationId } = req.body]
    stands before the first [try], and throws when no body was parsed. *)
Definition exportLeadsRoute (body : jsval) : M Response :=
  leads ← member body "leads";
  locationId ← member body "locationId";
  exportLeads leads locationId.

(** 6. [GET /api/auth/status] *)
Definition authStatus : M Response :=
  tokens ← tokenStore_get userId;
  match tokens with
  | None => mret (Json 200 (JObj [("authenticated", JBool false)]))
  | Some tokens =>
    now ← Date_now;
    let isExpired := (now >=? expires_at tokens)%Z in
    mret (Json 200 (JObj [("authenticated", JBool (negb isExpired));
                          ("location_id", location_id tokens);
                          ("company_id", company_id tokens);
                          ("expires_at", JNum (expires_at tokens))]))
  end.

(** ** Derived definitions *)

Definition Unauthenticated : Response :=
  Json 401 (JObj [("error", JStr "User not authenticated")]).

Definition EmptyBatch : Response :=
  Json 400 (JObj [("error", JStr "No leads provided")]).

Definition RefreshFailed : Exn := Error "Failed to refresh token".

Definition NoRefreshToken : Exn := Error "No refresh token available".

(** The spec's resolution rule: the keys of a canonical field are tried in
    order, primary key first; a key is passed over when the lead holds
    nothing usable under it (no value, or a falsy one), and the default is
    taken when every key was passed over. *)
Fixpoint resolve (lead : jsval) (keys : list string) (default : jsval) : jsval :=
  match keys with
  | [] => default
  | k :: aliases =>
    if truthy (prop lead k) then prop lead k else resolve lead aliases default
  end.

(** Canonical field, its keys in resolution order, its default. *)
Definition resolution_order : list (string * (list string * string)) :=
  [("firstName", (["firstName"; "first_name"], ""));
   ("lastName", (["lastName"; "last_name"], ""));
   ("email", (["email"], ""));
   ("phone", (["phone"; "phoneNumber"], ""));
   ("address1", (["address"; "address1"], ""));
   ("city", (["city"], ""));
   ("state", (["state"], ""));
   ("country", (["country"], "US"));
   ("postalCode", (["zipCode"; "postalCode"], ""));
   ("website", (["website"], ""));
   ("timezone", (["timezone"], "America/New_York"))].

Definition leadId (lead : jsval) : jsval := prop lead "id" ||| prop lead "_id".

(** The contact-creation call made for [lead]. *)
Definition contactRequest (t : Tokens) (targetLocationId lead : jsval) : Request :=
  CreateContact (normalize lead) (access_token t) targetLocationId.

Definition successResult (lead data : jsval) : jsval :=
  JObj [("success", JBool true);
        ("leadId", leadId lead);
        ("contactId", optprop (prop data "contact") "id");
        ("email", prop (normalize lead) "email")].

Definition failureResult (lead : jsval) (leadError : Exn) : jsval :=
  JObj [("success", JBool false);
        ("leadId", leadId lead);
        ("email", prop lead "email");
        ("error", optprop (response_data leadError) "message"
                  ||| JStr (message leadError))].

(** What the loop pushes for [lead], by the upstream's answer: a rejected
    call is a failure, and so is an answer without a body, whose
    [response.data.contact] cannot be read. *)
Definition leadResult (lead : jsval) (reply : Reply jsval) : jsval :=
  match reply with
  | Resolved data =>
    if nullish data then failureResult lead (TypeError "contact")
    else successResult lead data
  | Rejected leadError => failureResult lead leadError
  end.

(** [r] is what the loop pushes for [lead]: a success or a failure entry
    built from that lead. *)
Definition resultOf (lead r : jsval) : Prop :=
  (∃ data, r = successResult lead data) ∨ (∃ err, r = failureResult lead err).

Definition logged (w : World) (reqs : list Request) : World :=
  mkWorld (tokenStore w) (calls w ++ reqs) (ticks w).

(** The world after one reading of the clock. *)
Definition ticked (w : World) : World :=
  mkWorld (tokenStore w) (calls w) (S (ticks w)).

(** The target location of a batch. *)
Definition target (locationId : jsval) (t : Tokens) : jsval :=
  locationId ||| location_id t.

(** The results of a run of the loop that starts with [n] upstream calls
    already made: the [i]-th lead gets the answer to call [n + i]. *)
Fixpoint outcomes (e : Env) (t : Tokens) (loc : jsval) (n : nat) (leads : list jsval)
    : list jsval :=
  match leads with
  | [] => []
  | lead :: rest =>
    leadResult lead (api_reply e n (contactRequest t loc lead))
    :: outcomes e t loc (S n) rest
  end.

(** The record [refreshAccessToken] writes back. *)
Definition refreshed (tokens : Tokens) (d : TokenData.t) (now : Z) : Tokens :=
  {| access_token := TokenData.access_token d;
     expires_at := (now + TokenData.expires_in d * 1000)%Z;
     refresh_token := TokenData.refresh_token d ||| refresh_token tokens;
     location_id := location_id tokens;
     company_id := company_id tokens;
     scope := scope tokens |}.

(** The record the callback stores. *)
Definition issuedRecord (d : TokenData.t) (now : Z) : Tokens :=
  {| access_token := TokenData.access_token d;
     refresh_token := TokenData.refresh_token d;
     expires_at := (now + TokenData.expires_in d * 1000)%Z;
     location_id := TokenData.locationId d;
     company_id := TokenData.companyId d;
     scope := TokenData.scope d |}.

(** ** The lead fetch, and further derived definitions *)

(** [await] of an HTTP call outside the CRM: its answer is given. *)
Definition settle {A : Type} (reply : Reply A) : M A :=
  λ _ w,
    match reply with
    | Resolved data => (w, Normal data)
    | Rejected error => (w, Throw error)
    end.

(** 4. [GET /api/d7-leads], given the answer of the LeadSource to the one
    request the handler makes ([d7Response.data], or the rejection). *)
Definition getD7Leads (d7Response : Reply jsval) : M Response :=
  try_catch
    (data ← settle d7Response;
     leads ← member data "leads";
     mret (Json 200 (JObj [("success", JBool true);
                           ("leads", leads ||| data)])))
    (λ error,
       mret (Json 500 (JObj [("error", JStr "Failed to fetch D7 leads");
                             ("details", details error)]))).

Definition isObject (v : jsval) : bool :=
  match v with
  | JObj _ => true
  | _ => false
  end.

(** The keys of a lead the normalizer reads. *)
Definition lead_keys : list string :=
  ["firstName"; "first_name"; "lastName"; "last_name"; "email"; "phone";
   "phoneNumber"; "address"; "address1"; "city"; "state"; "country";
   "zipCode"; "postalCode"; "website"; "timezone"].

(** The leads of a list up to its first [null]. *)
Fixpoint attempted (leads : list jsval) : list jsval :=
  match leads with
  | [] => []
  | lead :: rest => if nullish lead then [] else lead :: attempted rest
  end.

(** Whether the CRM's answer makes a success entry. *)
Definition accepted (reply : Reply jsval) : bool :=
  match reply with
  | Resolved data => negb (nullish data)
  | Rejected _ => false
  end.

(** [w'] differs from [w] at most on the record of [uid]. *)
Definition onlyAccount (uid : string) (w w' : World) : Prop :=
  ∀ other, other ≠ uid → tokenStore w' !! other = tokenStore w !! other.

(** The CRM's answers to the calls of a run of the loop that starts with
    [n] upstream calls already made. *)
Fixpoint replies (e : Env) (t : Tokens) (loc : jsval) (n : nat) (leads : list jsval)
    : list (Reply jsval) :=
  match leads with
  | [] => []
  | lead :: rest =>
    api_reply e n (contactRequest t loc lead) :: replies e t loc (S n) rest
  end.

(** A lead the [catch] block of the loop can log: its e-mail converts to a
    string. *)
Definition loggable (lead : jsval) : bool := stringifiable (prop lead "email").

(** A lead the loop records whatever the CRM answers: not [null], and
    loggable.  A lead record whose values are scalars is one. *)
Definition recordable (lead : jsval) : bool := negb (nullish lead) && loggable lead.

(** Whether the loop body returns for a lead that is not [null], given the
    CRM's answer: a success entry needs no log line. *)
Definition recorded (lead : jsval) (reply : Reply jsval) : bool :=
  accepted reply || loggable lead.

(** The leads the loop makes a call for, when it starts with [n] upstream
    calls already made: it stops before a [null], and after a lead whose
    failure it cannot log. *)
Fixpoint loopCalls (e : Env) (t : Tokens) (loc : jsval) (n : nat) (leads : list jsval)
    : list jsval :=
  match leads with
  | [] => []
  | lead :: rest =>
    if nullish lead then []
    else lead :: (if recorded lead (api_reply e n (contactRequest t loc lead))
                  then loopCalls e t loc (S n) rest
                  else [])
  end.

(** What the loop throws, if it does. *)
Fixpoint loopThrown (e : Env) (t : Tokens) (loc : jsval) (n : nat) (leads : list jsval)
    : option Exn :=
  match leads with
  | [] => None
  | lead :: rest =>
    if nullish lead then Some (TypeError "email")
    else if recorded lead (api_reply e n (contactRequest t loc lead))
         then loopThrown e t loc (S n) rest
         else Some ConversionError
  end.

(** [m] changes the token store at most on the record of [uid]. *)
Definition confined (uid : string) {A : Type} (m : M A) : Prop :=
  ∀ e w, onlyAccount uid w (m e w).1.

(** Whenever [m] returns, its value satisfies [P]. *)
Definition returns_only {A : Type} (P : A → Prop) (m : M A) : Prop :=
  ∀ e w w' a, m e w = (w', Normal a) → P a.

(** [m] never throws, and answers with a response that satisfies [P]. *)
Definition answers (P : Response → Prop) (m : M Response) : Prop :=
  ∀ e w, ∃ w' r, m e w = (w', Normal r) ∧ P r.

(** The status of a response is one of [codes]; [res.redirect] answers 302. *)
Definition statusIn (codes : list Z) (r : Response) : Prop :=
  match r with
  | Json status _ => status ∈ codes
  | Redirect _ => 302%Z ∈ codes
  end.

(** ** Example worlds *)

Module Examples.

Definition record : Tokens :=
  mkTokens (JStr "T0") (JStr "R0") 5000 (JStr "loc-1") (JStr "co-1")
           (JStr "contacts.write").

Definition issued : TokenData.t :=
  TokenData.mk (JStr "T1") JUndefined 3600 (JStr "loc-1") (JStr "co-1")
               (JStr "contacts.write").

Definition authenticated : World := mkWorld {[ userId := record ]} [] 0.

Definition anonymous : World := mkWorld ∅ [] 0.

Definition created : jsval := JObj [("contact", JObj [("id", JStr "c-1")])].

Definition invalid_email : Exn :=
  mkExn "Request failed with status code 422" (JObj [("message", JStr "Invalid email")]).

(** The clock reads 1000, 1001, ...; the token endpoint issues [issued];
    the CRM rejects the first contact and creates every later one. *)
Definition first_rejected : Env :=
  mkEnv (λ n, 1000 + Z.of_nat n)%Z
        (λ _ _, Resolved issued)
        (λ n _, if (n =? 0)%nat then Rejected invalid_email else Resolved created).

(** The same, with an expired record's clock and a CRM that creates all. *)
Definition late : Env :=
  mkEnv (λ n, 9000 + Z.of_nat n)%Z
        (λ _ _, Resolved issued)
        (λ _ _, Resolved created).

(** The token endpoint rejects every request. *)
Definition revoked : Env :=
  mkEnv (λ n, 9000 + Z.of_nat n)%Z
        (λ _ _, Rejected (mkExn "Request failed with status code 401" JUndefined))
        (λ _ _, Resolved created).

Definition leadA : jsval := JObj [("id", JNum 1); ("email", JStr "a@")].
Definition leadB : jsval := JObj [("_id", JStr "b7"); ("first_name", JStr "Jo")].

(** A lead whose e-mail is an object that has no string form. *)
Definition leadC : jsval :=
  JObj [("id", JNum 3); ("email", JObj [("toString", JNum 0)])].

End Examples.

(** ** Running the monad *)

Lemma bind_run {A B : Type} (m : M A) (f : A → M B) (e : Env) (w : World) :
  (m ≫= f) e w =
  match m e w with
  | (w', Normal a) => f a e w'
  | (w', Throw x) => (w', Throw x)
  end.
Proof. reflexivity. Qed.

(** Open a handler up to its first read of the token store. *)
Ltac open_handler h := unfold h, mbind, M_bind, tokenStore_get.

Lemma member_run (v : jsval) (k : string) (e : Env) (w : World) :
  nullish v = false → member v k e w = (w, Normal (prop v k)).
Proof. intros Hv. unfold member. now rewrite Hv. Qed.

Lemma member_nullish (v : jsval) (k : string) (e : Env) (w : World) :
  nullish v = true → member v k e w = (w, Throw (TypeError k)).
Proof. intros Hv. unfold member. now rewrite Hv. Qed.

Lemma jsor_chain (a b c : jsval) :
  a ||| b ||| c = if truthy a then a else if truthy b then b else c.
Proof.
  unfold jsor. destruct (truthy a) eqn:Ha.
  - now rewrite Ha.
  - reflexivity.
Qed.

(** ** The lead normalizer *)

Lemma resolve_absent (lead : jsval) (keys : list string) (default : jsval) :
  Forall (λ k, prop lead k = JUndefined) keys → resolve lead keys default = default.
Proof.
  induction 1 as [|k keys Hk _ IH]; simpl.
  - reflexivity.
  - now rewrite Hk.
Qed.

Lemma normalize_field (lead : jsval) (f : string) (keys : list string) (d : string) :
  (f, (keys, d)) ∈ resolution_order →
  prop (normalize lead) f = resolve lead keys (JStr d).
Proof.
  intros Hin. apply list_elem_of_In in Hin. simpl in Hin.
  repeat (destruct Hin as [Hin | Hin];
          [ injection Hin as <- <- <-; cbn; rewrite ?jsor_chain; reflexivity | ]).
  contradiction.
Qed.

(** C5. The normalizer is a function of the lead alone; every canonical
    field is the first usable value among its primary key and aliases, in
    the documented order, and its default (the empty string, "US" for
    country, "America/New_York" for timezone) when the lead has none of the
    keys; source and tags are constant; [{first_name: "Jo"}] gives
    firstName "Jo", and a lead with neither firstName nor first_name gives
    the empty firstName. *)
Theorem normalize_resolves (lead : jsval) :
  (∀ f keys d, (f, (keys, d)) ∈ resolution_order →
     prop (normalize lead) f = resolve lead keys (JStr d) ∧
     (Forall (λ k, prop lead k = JUndefined) keys →
      prop (normalize lead) f = JStr d)) ∧
  prop (normalize lead) "source" = JStr "D7 LeadFinder Import" ∧
  prop (normalize lead) "tags" = JArr [JStr "D7Import"; JStr "Lead"] ∧
  prop (normalize (JObj [("first_name", JStr "Jo")])) "firstName" = JStr "Jo" ∧
  (prop lead "firstName" = JUndefined → prop lead "first_name" = JUndefined →
   prop (normalize lead) "firstName" = JStr "").
Proof.
  split; [| repeat split].
  - intros f keys d Hin. pose proof (normalize_field lead f keys d Hin) as Hf.
    split; [exact Hf |].
    intros Habs. rewrite Hf. now apply resolve_absent.
  - intros H1 H2. cbn. now rewrite H1, H2.
Qed.

Lemma normalize_resolves_witness :
  prop (normalize (JObj [("phoneNumber", JStr "555"); ("lastName", JStr "")]))
    "phone" = JStr "555" ∧
  prop (normalize (JObj [("phoneNumber", JStr "555"); ("lastName", JStr "")]))
    "country" = JStr "US" ∧
  prop (normalize (JObj [("phoneNumber", JStr "555"); ("lastName", JStr "")]))
    "firstName" = JStr "".
Proof.
  pose proof (normalize_resolves
                (JObj [("phoneNumber", JStr "555"); ("lastName", JStr "")]))
    as (Hfields & _ & _ & _ & Hfirst).
  split; [| split].
  - destruct (Hfields "phone" ["phone"; "phoneNumber"] "") as [Hr _].
    + apply list_elem_of_In. simpl. tauto.
    + exact Hr.
  - destruct (Hfields "country" ["country"] "US") as [_ Hd].
    + apply list_elem_of_In. simpl. tauto.
    + apply Hd. repeat constructor.
  - apply Hfirst; reflexivity.
Defined.

(** ** One lead of the export loop *)

Lemma template_run (v : jsval) (e : Env) (w : World) :
  template v e w = (w, if stringifiable v then Normal tt else Throw ConversionError).
Proof. unfold template. now destruct (stringifiable v). Qed.

(** What the [catch] block of the loop does with [leadError] for a lead
    that is not [null]. *)
Lemma catch_run (lead : jsval) (leadError : Exn) (e : Env) (w : World) :
  nullish lead = false →
  (email ← member lead "email";
   template email;;
   mret (JObj [("success", JBool false);
               ("leadId", prop lead "id" ||| prop lead "_id");
               ("email", prop lead "email");
               ("error", optprop (response_data leadError) "message"
                         ||| JStr (message leadError))])) e w
  = (w, if loggable lead then Normal (failureResult lead leadError)
        else Throw ConversionError).
Proof.
  intros Hlead. rewrite bind_run, member_run by exact Hlead.
  rewrite bind_run, template_run. unfold loggable.
  now destruct (stringifiable (prop lead "email")).
Qed.

Lemma exportLead_run (e : Env) (w : World) (t : Tokens) (loc lead : jsval) :
  nullish lead = false →
  exportLead (Some t) loc lead e w =
  (logged w [contactRequest t loc lead],
   if recorded lead (api_reply e (length (calls w)) (contactRequest t loc lead))
   then Normal (leadResult lead (api_reply e (length (calls w)) (contactRequest t loc lead)))
   else Throw ConversionError).
Proof.
  intros Hlead.
  unfold exportLead, try_catch. rewrite !bind_run, member_run by exact Hlead.
  cbn [field]. rewrite bind_run. cbn [mret M_ret]. rewrite bind_run.
  unfold axios_api, upstream, recorded, leadResult, contactRequest.
  destruct (api_reply e (length (calls w)) _) as [data | err]; cbn [accepted orb].
  - rewrite bind_run. unfold member at 1. destruct (nullish data); cbn [negb orb].
    + unfold throw at 1. now rewrite catch_run.
    + reflexivity.
  - now rewrite catch_run.
Qed.

(** Without a store value the call is never made: reading its
    [access_token] throws inside the [try]. *)
Lemma exportLead_no_tokens (e : Env) (w : World) (loc lead : jsval) :
  nullish lead = false →
  exportLead None loc lead e w =
  (w, if loggable lead then Normal (failureResult lead (TypeError "access_token"))
      else Throw ConversionError).
Proof.
  intros Hlead.
  unfold exportLead, try_catch. rewrite !bind_run, member_run by exact Hlead.
  cbn [field]. rewrite bind_run. unfold throw at 1. now rewrite catch_run.
Qed.

(** A [null] lead escapes the loop: the [catch] block reads [lead.email]. *)
Lemma exportLead_null (e : Env) (w : World) (o : option Tokens) (loc lead : jsval) :
  nullish lead = true →
  exportLead o loc lead e w = (w, Throw (TypeError "email")).
Proof.
  intros Hlead.
  unfold exportLead, try_catch, mbind, M_bind, member.
  now rewrite Hlead.
Qed.

Lemma leadResult_resultOf (lead : jsval) (reply : Reply jsval) :
  resultOf lead (leadResult lead reply).
Proof.
  unfold resultOf, leadResult.
  destruct reply as [data | err]; [destruct (nullish data) |]; eauto.
Qed.

Lemma exportLead_result (e : Env) (w w' : World) (o : option Tokens)
    (loc lead r : jsval) :
  exportLead o loc lead e w = (w', Normal r) →
  nullish lead = false ∧ resultOf lead r.
Proof.
  intros Hrun. destruct (nullish lead) eqn:Hlead.
  - rewrite exportLead_null in Hrun by exact Hlead. discriminate.
  - split; [reflexivity |]. destruct o as [t |].
    + rewrite exportLead_run in Hrun by exact Hlead.
      destruct (recorded lead _); [| discriminate].
      injection Hrun as _ <-. apply leadResult_resultOf.
    + rewrite exportLead_no_tokens in Hrun by exact Hlead.
      destruct (loggable lead); [| discriminate].
      injection Hrun as _ <-. right. eauto.
Qed.

Lemma exportLead_keeps_store (e : Env) (w : World) (o : option Tokens)
    (loc lead : jsval) :
  tokenStore (exportLead o loc lead e w).1 = tokenStore w.
Proof.
  destruct (nullish lead) eqn:Hlead.
  - now rewrite exportLead_null.
  - destruct o as [t |].
    + now rewrite exportLead_run.
    + now rewrite exportLead_no_tokens.
Qed.

(** ** The export loop *)

Lemma logged_nil (w : World) : logged w [] = w.
Proof. destruct w as [s c k]. unfold logged. simpl. now rewrite app_nil_r. Qed.

Lemma logged_logged (w : World) (r1 r2 : list Request) :
  logged (logged w r1) r2 = logged w (r1 ++ r2).
Proof. unfold logged. simpl. now rewrite app_assoc. Qed.

Lemma recordable_split (lead : jsval) :
  recordable lead = true → nullish lead = false ∧ loggable lead = true.
Proof.
  unfold recordable. destruct (nullish lead); simpl; [discriminate | auto].
Qed.

Section Loop.

Variables (e : Env) (t : Tokens) (loc : jsval).

Lemma outcomes_length (leads : list jsval) :
  ∀ n, length (outcomes e t loc n leads) = length leads.
Proof. induction leads as [|lead rest IH]; intros n; simpl; [| rewrite IH]; reflexivity. Qed.

Lemma outcomes_lookup (leads : list jsval) :
  ∀ n i lead,
    leads !! i = Some lead →
    outcomes e t loc n leads !! i =
    Some (leadResult lead (api_reply e (n + i) (contactRequest t loc lead))).
Proof.
  induction leads as [|l rest IH]; intros n i lead Hi.
  - discriminate.
  - destruct i as [|i]; simpl in *.
    + injection Hi as ->. now rewrite Nat.add_0_r.
    + rewrite (IH (S n) i lead Hi). now rewrite Nat.add_succ_r.
Qed.

Lemma outcomes_resultOf (leads : list jsval) :
  ∀ n, Forall2 resultOf leads (outcomes e t loc n leads).
Proof.
  induction leads as [|lead rest IH]; intros n; simpl; constructor.
  - apply leadResult_resultOf.
  - apply IH.
Qed.

(** The loop on any list: the calls it makes, and how it ends. *)
Lemma exportLoop_run (leads : list jsval) :
  ∀ results w,
    exportLoop (Some t) loc leads results e w =
    (logged w (map (contactRequest t loc) (loopCalls e t loc (length (calls w)) leads)),
     match loopThrown e t loc (length (calls w)) leads with
     | Some error => Throw error
     | None => Normal (results ++ outcomes e t loc (length (calls w)) leads)
     end).
Proof.
  induction leads as [|lead rest IH]; intros results w; simpl.
  - now rewrite logged_nil, app_nil_r.
  - rewrite bind_run. destruct (nullish lead) eqn:Hlead.
    + rewrite exportLead_null by exact Hlead. now rewrite logged_nil.
    + rewrite exportLead_run by exact Hlead.
      destruct (recorded lead _); [| reflexivity].
      rewrite IH, logged_logged. simpl.
      rewrite length_app, Nat.add_1_r.
      destruct (loopThrown e t loc (S (length (calls w))) rest); [reflexivity |].
      now rewrite <- app_assoc.
Qed.

(** Recordable leads never make the loop throw, whatever the CRM answers. *)
Lemma loopThrown_recordable (leads : list jsval) :
  Forall (λ lead, recordable lead = true) leads →
  ∀ n, loopThrown e t loc n leads = None.
Proof.
  induction 1 as [|lead rest Hlead _ IH]; intros n; simpl; [reflexivity |].
  destruct (recordable_split lead Hlead) as [Hnull Hlog].
  rewrite Hnull. unfold recorded. rewrite Hlog, orb_true_r. apply IH.
Qed.

(** A loop that does not throw has made a call for every lead. *)
Lemma loopCalls_all (leads : list jsval) :
  ∀ n, loopThrown e t loc n leads = None → loopCalls e t loc n leads = leads.
Proof.
  induction leads as [|lead rest IH]; intros n; simpl; [reflexivity |].
  destruct (nullish lead); [discriminate |].
  destruct (recorded lead _); [| discriminate].
  intros Hrest. now rewrite IH.
Qed.

(** The calls are for an initial part of the leads before the first [null]. *)
Lemma loopCalls_prefix (leads : list jsval) :
  ∀ n, loopCalls e t loc n leads `prefix_of` attempted leads.
Proof.
  induction leads as [|lead rest IH]; intros n; simpl; [reflexivity |].
  destruct (nullish lead); [reflexivity |].
  destruct (recorded lead _).
  - apply prefix_cons, IH.
  - apply prefix_cons, prefix_nil.
Qed.

(** A [null] in the list always makes the loop throw. *)
Lemma loopThrown_null (leads : list jsval) :
  existsb nullish leads = true →
  ∀ n, ∃ error, loopThrown e t loc n leads = Some error.
Proof.
  induction leads as [|lead rest IH]; intros Hnull n; simpl in *; [discriminate |].
  destruct (nullish lead); [eauto |].
  destruct (recorded lead _); [apply IH, Hnull | eauto].
Qed.

End Loop.

(** The two counters of the report partition the results. *)
Lemma counts_partition (results : list jsval) :
  successCount results + failureCount results = length results.
Proof.
  unfold successCount, failureCount, jsnot.
  induction results as [|r rest IH]; [reflexivity |].
  rewrite !filter_cons.
  destruct (truthy (prop r "success")); simpl in *; lia.
Qed.

(** ** Refreshing the access token *)

Lemma refreshAccessToken_missing (uid : string) (e : Env) (w : World) :
  tokenStore w !! uid = None →
  refreshAccessToken uid e w = (w, Throw (Error "No refresh token available")).
Proof.
  intros Hget. open_handler refreshAccessToken. now rewrite Hget.
Qed.

Lemma refreshAccessToken_no_refresh_token (uid : string) (e : Env) (w : World)
    (tokens : Tokens) :
  tokenStore w !! uid = Some tokens →
  truthy (refresh_token tokens) = false →
  refreshAccessToken uid e w = (w, Throw (Error "No refresh token available")).
Proof.
  intros Hget Hrt. open_handler refreshAccessToken. unfold jsnot.
  now rewrite Hget, Hrt.
Qed.

Lemma refreshAccessToken_resolved (uid : string) (e : Env) (w : World)
    (tokens : Tokens) (d : TokenData.t) :
  tokenStore w !! uid = Some tokens →
  truthy (refresh_token tokens) = true →
  token_reply e (length (calls w)) (TokenRefresh (refresh_token tokens)) = Resolved d →
  refreshAccessToken uid e w =
  (mkWorld (<[uid := refreshed tokens d (now_at e (ticks w))]> (tokenStore w))
           (calls w ++ [TokenRefresh (refresh_token tokens)]) (S (ticks w)),
   Normal d).
Proof.
  intros Hget Hrt Hreply.
  unfold refreshAccessToken, mbind, M_bind, tokenStore_get, jsnot, try_catch,
    axios_token, upstream.
  rewrite Hget, Hrt. cbn. rewrite Hreply. reflexivity.
Qed.

Lemma refreshAccessToken_rejected (uid : string) (e : Env) (w : World)
    (tokens : Tokens) (err : Exn) :
  tokenStore w !! uid = Some tokens →
  truthy (refresh_token tokens) = true →
  token_reply e (length (calls w)) (TokenRefresh (refresh_token tokens)) = Rejected err →
  refreshAccessToken uid e w =
  (mkWorld (delete uid (tokenStore w))
           (calls w ++ [TokenRefresh (refresh_token tokens)]) (ticks w),
   Throw (Error "Failed to refresh token")).
Proof.
  intros Hget Hrt Hreply.
  unfold refreshAccessToken, mbind, M_bind, tokenStore_get, jsnot, try_catch,
    axios_token, upstream.
  rewrite Hget, Hrt. cbn. rewrite Hreply. reflexivity.
Qed.

(** ** Refresh on demand *)

Lemma refreshIfExpired_fresh (uid : string) (e : Env) (w : World) (tokens : Tokens) :
  (now_at e (ticks w) < expires_at tokens)%Z →
  refreshIfExpired uid tokens e w = (ticked w, Normal (tokenStore w !! uid)).
Proof.
  intros Hfresh. unfold refreshIfExpired, mbind, M_bind, Date_now.
  rewrite Z.geb_leb.
  destruct (Z.leb_spec (expires_at tokens) (now_at e (ticks w))) as [Hle | _]; [lia |].
  reflexivity.
Qed.

Lemma refreshIfExpired_expired (uid : string) (e : Env) (w : World) (tokens : Tokens) :
  (expires_at tokens ≤ now_at e (ticks w))%Z →
  refreshIfExpired uid tokens e w =
  match refreshAccessToken uid e (ticked w) with
  | (w', Normal _) => (w', Normal (tokenStore w' !! uid))
  | (w', Throw x) => (w', Throw x)
  end.
Proof.
  intros Hexp. unfold refreshIfExpired, mbind at 1 2, M_bind, Date_now.
  rewrite Z.geb_leb.
  destruct (Z.leb_spec (expires_at tokens) (now_at e (ticks w))) as [_ | Hlt]; [| lia].
  fold (ticked w). rewrite bind_run.
  destruct (refreshAccessToken uid e (ticked w)) as [w' [d | x]]; reflexivity.
Qed.

(** Once the handler holds the stored record, a token resolution that does
    not throw ends with a record in the store, and hands that record on. *)
Lemma refreshIfExpired_some (uid : string) (e : Env) (w w1 : World)
    (tokens : Tokens) (o : option Tokens) :
  tokenStore w !! uid = Some tokens →
  refreshIfExpired uid tokens e w = (w1, Normal o) →
  ∃ t, o = Some t ∧ tokenStore w1 !! uid = Some t.
Proof.
  intros Hget Hrun.
  destruct (Z.lt_ge_cases (now_at e (ticks w)) (expires_at tokens)) as [Hfresh | Hexp].
  - rewrite refreshIfExpired_fresh in Hrun by exact Hfresh.
    injection Hrun as <- <-. exists tokens. now split.
  - rewrite refreshIfExpired_expired in Hrun by exact Hexp.
    destruct (truthy (refresh_token tokens)) eqn:Hrt.
    + destruct (token_reply e (length (calls (ticked w)))
                  (TokenRefresh (refresh_token tokens))) as [d | err] eqn:Hreply.
      * rewrite (refreshAccessToken_resolved uid e (ticked w) tokens d) in Hrun
          by assumption.
        injection Hrun as <- <-. simpl. rewrite lookup_insert_eq. eauto.
      * rewrite (refreshAccessToken_rejected uid e (ticked w) tokens err) in Hrun
          by assumption.
        discriminate.
    + rewrite (refreshAccessToken_no_refresh_token uid e (ticked w) tokens) in Hrun
        by assumption.
      discriminate.
Qed.

(** ** The export handler *)

Lemma exportLeads_unauthenticated (e : Env) (w : World) (leads locationId : jsval) :
  tokenStore w !! userId = None →
  exportLeads leads locationId e w = (w, Normal Unauthenticated).
Proof.
  intros Hget. open_handler exportLeads. now rewrite Hget.
Qed.

Lemma target_run (locationId : jsval) (t : Tokens) (e : Env) (w : World) :
  (if truthy locationId then mret locationId
   else field (Some t) location_id "location_id") e w
  = (w, Normal (target locationId t)).
Proof. unfold target, jsor. now destruct (truthy locationId). Qed.

(** The export of a non-empty array, once the token is resolved to [t]. *)
Lemma exportLeads_run (e : Env) (w w1 : World) (tokens t : Tokens)
    (lead : jsval) (rest : list jsval) (locationId : jsval) :
  tokenStore w !! userId = Some tokens →
  refreshIfExpired userId tokens e w = (w1, Normal (Some t)) →
  exportLeads (JArr (lead :: rest)) locationId e w =
  (logged w1 (map (contactRequest t (target locationId t))
                (loopCalls e t (target locationId t) (length (calls w1)) (lead :: rest))),
   Normal
     match loopThrown e t (target locationId t) (length (calls w1)) (lead :: rest) with
     | Some error =>
       Json 500 (JObj [("error", JStr "Failed to export leads");
                       ("details", details error)])
     | None =>
       Json 200 (exportReport
                   (outcomes e t (target locationId t) (length (calls w1)) (lead :: rest))
                   (length (lead :: rest)))
     end).
Proof.
  intros Hget Hrefresh.
  unfold exportLeads. rewrite bind_run. unfold tokenStore_get at 1. rewrite Hget.
  cbn [jsnot truthy negb isArray items_of length Nat.eqb orb].
  unfold try_catch. rewrite bind_run, Hrefresh, bind_run.
  rewrite target_run, bind_run, exportLoop_run.
  now destruct (loopThrown e t (target locationId t) (length (calls w1)) (lead :: rest)).
Qed.

(** The export of a non-empty array when the token resolution throws. *)
Lemma exportLeads_unresolved (e : Env) (w w1 : World) (tokens : Tokens) (error : Exn)
    (lead : jsval) (rest : list jsval) (locationId : jsval) :
  tokenStore w !! userId = Some tokens →
  refreshIfExpired userId tokens e w = (w1, Throw error) →
  exportLeads (JArr (lead :: rest)) locationId e w =
  (w1, Normal (Json 500 (JObj [("error", JStr "Failed to export leads");
                               ("details", details error)]))).
Proof.
  intros Hget Hrefresh.
  unfold exportLeads. rewrite bind_run. unfold tokenStore_get at 1. rewrite Hget.
  cbn [jsnot truthy negb isArray items_of length Nat.eqb orb].
  unfold try_catch. now rewrite bind_run, Hrefresh.
Qed.

Lemma exportLeads_no_batch (e : Env) (w : World) (tokens : Tokens)
    (leads locationId : jsval) :
  tokenStore w !! userId = Some tokens →
  (∀ x l, leads ≠ JArr (x :: l)) →
  exportLeads leads locationId e w = (w, Normal EmptyBatch).
Proof.
  intros Hget Hshape. open_handler exportLeads. rewrite Hget.
  destruct leads as [| | b | n | s | [|x l] | fs]; try reflexivity.
  - cbn. now rewrite orb_true_r.
  - cbn. now rewrite orb_true_r.
  - cbn. now rewrite orb_true_r.
  - now destruct (Hshape x l).
Qed.

(** A report is the answer only to a non-empty array, with a record in the
    store, a token resolution that returns and a loop that does not throw;
    the report is then that of the loop's results. *)
Lemma exportLeads_report_inv (e : Env) (w w2 : World) (leads locationId body : jsval) :
  exportLeads leads locationId e w = (w2, Normal (Json 200 body)) →
  ∃ tokens lead rest w1 t,
    tokenStore w !! userId = Some tokens ∧
    leads = JArr (lead :: rest) ∧
    refreshIfExpired userId tokens e w = (w1, Normal (Some t)) ∧
    loopThrown e t (target locationId t) (length (calls w1)) (lead :: rest) = None ∧
    body = exportReport
             (outcomes e t (target locationId t) (length (calls w1)) (lead :: rest))
             (length (lead :: rest)) ∧
    w2 = logged w1 (map (contactRequest t (target locationId t)) (lead :: rest)).
Proof.
  intros Hrun.
  destruct (tokenStore w !! userId) as [tokens |] eqn:Hget.
  2: { rewrite exportLeads_unauthenticated in Hrun by exact Hget. discriminate. }
  destruct leads as [| | b | n | s | [|lead rest] | fs];
    try (rewrite (exportLeads_no_batch e w tokens) in Hrun by (assumption || discriminate);
         discriminate).
  destruct (refreshIfExpired userId tokens e w) as [w1 [o | error]] eqn:Hres.
  - destruct (refreshIfExpired_some _ _ _ _ _ _ Hget Hres) as (t & -> & _).
    rewrite (exportLeads_run e w w1 tokens t lead rest locationId Hget Hres) in Hrun.
    destruct (loopThrown e t (target locationId t) (length (calls w1)) (lead :: rest))
      as [error |] eqn:Hthrown; [discriminate |].
    rewrite (loopCalls_all e t _ _ _ Hthrown) in Hrun.
    injection Hrun as <- <-.
    exists tokens, lead, rest, w1, t.
    repeat (split; [reflexivity || assumption |]).
    reflexivity.
  - rewrite (exportLeads_unresolved e w w1 tokens error lead rest locationId Hget Hres)
      in Hrun.
    discriminate.
Qed.

Lemma resultOf_leadId (lead r : jsval) :
  resultOf lead r → prop r "leadId" = prop lead "id" ||| prop lead "_id".
Proof. intros [[data ->] | [err ->]]; reflexivity. Qed.

(** ** The batch report *)

(** C1. Whenever the export answers with a report, the request held a
    non-empty array of N leads and the report's [results] has exactly N
    entries, the i-th built from the i-th lead, its [total] is N and its
    success and failure counts add up to N.  And it does answer with a
    report for an authenticated caller and a non-empty array of lead
    records (none [null], each with an e-mail that has a string form), once
    the token is resolved. *)
Theorem export_report_complete (e : Env) (w : World) (leads locationId : jsval) :
  (∀ w2 body,
     exportLeads leads locationId e w = (w2, Normal (Json 200 body)) →
     ∃ l results,
       leads = JArr l ∧ l ≠ [] ∧
       prop body "results" = JArr results ∧
       length results = length l ∧
       Forall2 resultOf l results ∧
       (∀ i lead, l !! i = Some lead →
          ∃ r, results !! i = Some r ∧
               prop r "leadId" = prop lead "id" ||| prop lead "_id") ∧
       prop body "summary" =
         JObj [("total", JNat (length l));
               ("success", JNat (successCount results));
               ("failed", JNat (failureCount results))] ∧
       successCount results + failureCount results = length l) ∧
  (∀ tokens l w1 o,
     tokenStore w !! userId = Some tokens →
     leads = JArr l → l ≠ [] →
     Forall (λ lead, recordable lead = true) l →
     refreshIfExpired userId tokens e w = (w1, Normal o) →
     ∃ w2 body, exportLeads leads locationId e w = (w2, Normal (Json 200 body))).
Proof.
  split.
  - intros w2 body Hrun.
    destruct (exportLeads_report_inv _ _ _ _ _ _ Hrun)
      as (tokens & lead & rest & w1 & t & _ & -> & _ & _ & -> & _).
    set (l := lead :: rest).
    set (results := outcomes e t (target locationId t) (length (calls w1)) l).
    assert (Hall : Forall2 resultOf l results) by apply outcomes_resultOf.
    exists l, results.
    split; [reflexivity |]. split; [discriminate |].
    split; [reflexivity |].
    split; [apply outcomes_length |].
    split; [exact Hall |].
    split.
    { intros i x Hi.
      destruct (Forall2_lookup_l _ _ _ _ _ Hall Hi) as (r & Hr & Hof).
      exists r. split; [exact Hr | now apply resultOf_leadId]. }
    split; [reflexivity |].
    rewrite counts_partition. apply outcomes_length.
  - intros tokens l w1 o Hget -> Hne Hleads Hrefresh.
    destruct (refreshIfExpired_some _ _ _ _ _ _ Hget Hrefresh) as (t & -> & _).
    destruct l as [|lead rest]; [congruence |].
    rewrite (exportLeads_run e w w1 tokens t lead rest locationId Hget Hrefresh).
    rewrite (loopThrown_recordable e t _ _ Hleads).
    eauto.
Qed.

Lemma export_report_complete_witness :
  ∃ w2 body results,
    exportLeads (JArr [Examples.leadA; Examples.leadB]) JUndefined
      Examples.first_rejected Examples.authenticated
    = (w2, Normal (Json 200 body)) ∧
    prop body "results" = JArr results ∧
    length results = 2 ∧
    prop body "summary" =
      JObj [("total", JNat 2);
            ("success", JNat (successCount results));
            ("failed", JNat (failureCount results))] ∧
    successCount results + failureCount results = 2.
Proof.
  destruct (export_report_complete Examples.first_rejected Examples.authenticated
              (JArr [Examples.leadA; Examples.leadB]) JUndefined)
    as [Hshape Hreport].
  destruct (Hreport Examples.record [Examples.leadA; Examples.leadB]
              (ticked Examples.authenticated) (Some Examples.record))
    as (w2 & body & Hrun).
  - reflexivity.
  - reflexivity.
  - discriminate.
  - repeat constructor.
  - reflexivity.
  - destruct (Hshape w2 body Hrun)
      as (l & results & Hl & _ & Hres & Hlen & _ & _ & Hsum & Hcount).
    injection Hl as <-.
    exists w2, body, results. repeat split; assumption.
Defined.

(** A [null] in the list is not isolated: the [catch] block of the loop
    reads [lead.email], so the whole request is answered with the handler's
    own failure. *)
Example export_null_lead :
  ∃ body,
    snd (exportLeads (JArr [JNull; Examples.leadB]) JUndefined
           Examples.first_rejected Examples.authenticated)
    = Normal (Json 500 body) ∧
    prop body "error" = JStr "Failed to export leads".
Proof. eexists. split; reflexivity. Qed.

(** C2. The isolation of a lead's failure is attempted and missed: the
    [catch] block that records the failure first writes a log line with
    [lead.email] in it.  For the batch [C; B], where C's e-mail is an
    object without a string form and the CRM rejects C's contact, that
    line throws: the request is answered 500 "Failed to export leads", no
    report is returned, and B, which the CRM would have created, is never
    attempted. *)
Theorem export_failure_not_isolated :
  ∃ w2 body,
    exportLeads (JArr [Examples.leadC; Examples.leadB]) JUndefined
      Examples.first_rejected Examples.authenticated
    = (w2, Normal (Json 500 body)) ∧
    api_reply Examples.first_rejected 0
      (contactRequest Examples.record (JStr "loc-1") Examples.leadC)
    = Rejected Examples.invalid_email ∧
    api_reply Examples.first_rejected 1
      (contactRequest Examples.record (JStr "loc-1") Examples.leadB)
    = Resolved Examples.created ∧
    body = JObj [("error", JStr "Failed to export leads");
                 ("details", details ConversionError)] ∧
    calls w2 = [contactRequest Examples.record (JStr "loc-1") Examples.leadC].
Proof.
  rewrite (exportLeads_run Examples.first_rejected Examples.authenticated
             (ticked Examples.authenticated) Examples.record Examples.record
             Examples.leadC [Examples.leadB] JUndefined) by reflexivity.
  eexists _, _. split; [reflexivity |].
  repeat split; reflexivity.
Qed.

(** ** The entries of the report *)

(** C10, as stated, fails on the success side: the e-mail of a success
    entry is the lead's own value whenever that is truthy, so for the lead
    [{email: 42}] it is the number 42, not a string. *)
Lemma success_email_not_always_string :
  ¬ (∀ (e : Env) (w w' : World) (o : option Tokens) (loc lead r : jsval),
       exportLead o loc lead e w = (w', Normal r) →
       prop r "success" = JBool true →
       isString (prop r "email") = true).
Proof.
  intros Hclaim.
  specialize (Hclaim Examples.late Examples.authenticated
                (logged Examples.authenticated
                   [contactRequest Examples.record JUndefined (JObj [("email", JNum 42)])])
                (Some Examples.record) JUndefined (JObj [("email", JNum 42)])
                (successResult (JObj [("email", JNum 42)]) Examples.created)
                eq_refl eq_refl).
  discriminate Hclaim.
Qed.

(** C10 (amended). Every entry the loop pushes is a success or a failure
    entry of its lead, and a lead that is not [null] and whose e-mail has a
    string form always gets one.  A success entry takes its e-mail from the
    normalized contact: the lead's e-mail when that is truthy and the empty
    string otherwise, so it is never absent, and it is a string whenever
    the lead's e-mail is a string or missing.  A failure entry carries the
    lead's raw e-mail, absent when the lead has none.  Either way [leadId]
    is the lead's [id], else its [_id], and absent when the lead has
    neither. *)
Theorem result_email_asymmetry (e : Env) (w : World) (o : option Tokens)
    (loc lead : jsval) :
  (recordable lead = true → ∃ w' r, exportLead o loc lead e w = (w', Normal r)) ∧
  (∀ w' r,
     exportLead o loc lead e w = (w', Normal r) →
     prop r "leadId" = prop lead "id" ||| prop lead "_id" ∧
     (prop lead "id" = JUndefined → prop lead "_id" = JUndefined →
      prop r "leadId" = JUndefined) ∧
     (prop r "success" = JBool true ∨ prop r "success" = JBool false) ∧
     (prop r "success" = JBool true →
      prop r "email" = prop (normalize lead) "email" ∧
      prop r "email" = prop lead "email" ||| JStr "" ∧
      prop r "email" ≠ JUndefined ∧
      (prop lead "email" = JUndefined → prop r "email" = JStr "") ∧
      (isString (prop lead "email") = true → isString (prop r "email") = true)) ∧
     (prop r "success" = JBool false →
      prop r "email" = prop lead "email" ∧
      (prop lead "email" = JUndefined → prop r "email" = JUndefined))).
Proof.
  split.
  - intros Hlead. destruct (recordable_split lead Hlead) as [Hnull Hlog].
    destruct o as [t |].
    + rewrite exportLead_run by exact Hnull. unfold recorded.
      rewrite Hlog, orb_true_r. eauto.
    + rewrite exportLead_no_tokens by exact Hnull. rewrite Hlog. eauto.
  - intros w' r Hrun.
    destruct (exportLead_result _ _ _ _ _ _ _ Hrun) as [_ [[data ->] | [err ->]]].
    + split; [reflexivity |].
      split; [intros H1 H2; cbn; unfold leadId; now rewrite H1, H2 |].
      split; [now left |].
      split; [| discriminate].
      intros _. cbn. unfold jsor.
      repeat split.
      * destruct (prop lead "email"); simpl; try discriminate;
          destruct b || destruct (_ =? _)%Z || destruct s || idtac; discriminate.
      * now intros ->.
      * destruct (prop lead "email"); try discriminate. now destruct s.
    + split; [reflexivity |].
      split; [intros H1 H2; cbn; unfold leadId; now rewrite H1, H2 |].
      split; [now right |].
      split; [discriminate |].
      intros _. cbn. split; [reflexivity | now intros ->].
Qed.

Lemma result_email_asymmetry_witness :
  ∃ w' r,
    exportLead (Some Examples.record) JUndefined Examples.leadB
      Examples.first_rejected Examples.authenticated = (w', Normal r) ∧
    prop r "leadId" = JStr "b7" ∧
    (prop r "success" = JBool false → prop r "email" = JUndefined).
Proof.
  destruct (result_email_asymmetry Examples.first_rejected Examples.authenticated
              (Some Examples.record) JUndefined Examples.leadB)
    as [Hentry Hshape].
  destruct (Hentry eq_refl) as (w' & r & Hrun).
  destruct (Hshape w' r Hrun) as (Hid & _ & _ & _ & Hfail).
  exists w', r. split; [exact Hrun |]. split; [exact Hid |].
  intros Hr. now apply Hfail.
Defined.

(** ** Preconditions of the export *)

(** C7. Without a credential record the export answers Unauthenticated
    (401); with one, a [leads] argument that is missing, not an array, or
    an empty array is answered EmptyBatch (400), and the world is left as
    it was: no refresh, no contact creation, not even a clock reading. *)
Theorem export_preconditions (e : Env) (w : World) (leads locationId : jsval) :
  (tokenStore w !! userId = None →
   exportLeads leads locationId e w = (w, Normal Unauthenticated)) ∧
  (is_Some (tokenStore w !! userId) →
   leads = JUndefined ∨ isArray leads = false ∨ leads = JArr [] →
   exportLeads leads locationId e w = (w, Normal EmptyBatch)).
Proof.
  split.
  - apply exportLeads_unauthenticated.
  - intros [tokens Hget] Hbad.
    open_handler exportLeads. rewrite Hget.
    destruct Hbad as [-> | [Harr | ->]]; [reflexivity | | reflexivity].
    rewrite Harr. simpl. now rewrite orb_true_r.
Qed.

Lemma export_preconditions_witness :
  exportLeads (JArr [Examples.leadA]) JUndefined Examples.late Examples.anonymous
  = (Examples.anonymous, Normal Unauthenticated) ∧
  exportLeads (JArr []) JUndefined Examples.late Examples.authenticated
  = (Examples.authenticated, Normal EmptyBatch) ∧
  exportLeads (JStr "leads") JUndefined Examples.late Examples.authenticated
  = (Examples.authenticated, Normal EmptyBatch).
Proof.
  split; [| split].
  - apply (export_preconditions Examples.late Examples.anonymous). reflexivity.
  - apply (export_preconditions Examples.late Examples.authenticated).
    + exists Examples.record. reflexivity.
    + right. right. reflexivity.
  - apply (export_preconditions Examples.late Examples.authenticated).
    + exists Examples.record. reflexivity.
    + right. left. reflexivity.
Defined.

(** ** Authentication status *)

(** C8. [authStatus] reports [authenticated: false] when there is no
    record and when the stored record's expiry is not after the clock
    reading; it always answers, makes no upstream call and leaves the token
    store as it was. *)
Theorem auth_status_read_only (e : Env) (w : World) :
  ∃ w' body,
    authStatus e w = (w', Normal (Json 200 body)) ∧
    tokenStore w' = tokenStore w ∧
    calls w' = calls w ∧
    (tokenStore w !! userId = None → prop body "authenticated" = JBool false) ∧
    (∀ tokens, tokenStore w !! userId = Some tokens →
       (expires_at tokens ≤ now_at e (ticks w))%Z →
       prop body "authenticated" = JBool false) ∧
    (∀ tokens, tokenStore w !! userId = Some tokens →
       (now_at e (ticks w) < expires_at tokens)%Z →
       prop body "authenticated" = JBool true).
Proof.
  open_handler authStatus. unfold Date_now.
  destruct (tokenStore w !! userId) as [tokens |] eqn:Hget.
  - eexists _, _. split; [reflexivity |]. cbn. rewrite Z.geb_leb.
    split; [reflexivity |]. split; [reflexivity |].
    split; [discriminate |].
    split; intros t [= <-] Ht.
    + destruct (Z.leb_spec (expires_at tokens) (now_at e (ticks w))); [reflexivity | lia].
    + destruct (Z.leb_spec (expires_at tokens) (now_at e (ticks w))); [lia | reflexivity].
  - eexists _, _. split; [reflexivity |]. cbn.
    repeat split; discriminate.
Qed.

Lemma auth_status_read_only_witness :
  ∃ w' body,
    authStatus Examples.late Examples.authenticated = (w', Normal (Json 200 body)) ∧
    tokenStore w' = tokenStore Examples.authenticated ∧
    calls w' = [] ∧
    prop body "authenticated" = JBool false.
Proof.
  destruct (auth_status_read_only Examples.late Examples.authenticated)
    as (w' & body & Hrun & Hstore & Hcalls & _ & Hexpired & _).
  exists w', body. repeat split; try assumption.
  apply (Hexpired Examples.record); [reflexivity | simpl; lia].
Defined.

(** ** The refresh protocol *)

(** C6. A successful refresh replaces the access token and the expiry,
    replaces the refresh token exactly when the response carries one (a
    truthy value) and keeps the old one otherwise, and leaves [location_id],
    [company_id] and [scope], and every other account's record, as they
    were. *)
Theorem refresh_merges (uid : string) (e : Env) (w : World) (tokens : Tokens)
    (d : TokenData.t) :
  tokenStore w !! uid = Some tokens →
  truthy (refresh_token tokens) = true →
  token_reply e (length (calls w)) (TokenRefresh (refresh_token tokens)) = Resolved d →
  ∃ w' t',
    refreshAccessToken uid e w = (w', Normal d) ∧
    tokenStore w' !! uid = Some t' ∧
    access_token t' = TokenData.access_token d ∧
    expires_at t' = (now_at e (ticks w) + TokenData.expires_in d * 1000)%Z ∧
    (truthy (TokenData.refresh_token d) = true →
     refresh_token t' = TokenData.refresh_token d) ∧
    (truthy (TokenData.refresh_token d) = false →
     refresh_token t' = refresh_token tokens) ∧
    (TokenData.refresh_token d = JUndefined →
     refresh_token t' = refresh_token tokens) ∧
    (refresh_token t' ≠ refresh_token tokens →
     truthy (TokenData.refresh_token d) = true) ∧
    location_id t' = location_id tokens ∧
    company_id t' = company_id tokens ∧
    scope t' = scope tokens ∧
    (∀ other, other ≠ uid → tokenStore w' !! other = tokenStore w !! other).
Proof.
  intros Hget Hrt Hreply.
  exists (mkWorld (<[uid := refreshed tokens d (now_at e (ticks w))]> (tokenStore w))
            (calls w ++ [TokenRefresh (refresh_token tokens)]) (S (ticks w))),
    (refreshed tokens d (now_at e (ticks w))).
  split; [now apply refreshAccessToken_resolved |]. simpl.
  split; [apply lookup_insert_eq |].
  split; [reflexivity |]. split; [reflexivity |].
  unfold jsor.
  split; [now intros -> |]. split; [now intros -> |]. split; [now intros -> |].
  split; [now destruct (truthy (TokenData.refresh_token d)) |].
  repeat split.
  intros other Hother. now apply lookup_insert_ne.
Qed.

Lemma refresh_merges_witness :
  ∃ w' t',
    refreshAccessToken userId Examples.late Examples.authenticated
    = (w', Normal Examples.issued) ∧
    tokenStore w' !! userId = Some t' ∧
    access_token t' = JStr "T1" ∧
    expires_at t' = 3609000%Z ∧
    refresh_token t' = JStr "R0" ∧
    location_id t' = JStr "loc-1".
Proof.
  destruct (refresh_merges userId Examples.late Examples.authenticated
              Examples.record Examples.issued eq_refl eq_refl eq_refl)
    as (w' & t' & Hrun & Hget & Hat & Hexp & _ & _ & Hkeep & _ & Hloc & _).
  exists w', t'. repeat split; try assumption.
  now apply Hkeep.
Defined.

Lemma getLocations_unauthenticated (e : Env) (w : World) :
  tokenStore w !! userId = None →
  getLocations e w = (w, Normal Unauthenticated).
Proof.
  intros Hget. open_handler getLocations. now rewrite Hget.
Qed.

(** C3. When the token endpoint rejects the refresh, [refreshAccessToken]
    deletes the account's record and throws RefreshFailed; from then on the
    token-requiring handlers answer Unauthenticated (401), not the refresh
    failure, and try no further refresh. *)
Theorem refresh_failure_purges (e : Env) (w : World) (tokens : Tokens) (err : Exn) :
  tokenStore w !! userId = Some tokens →
  truthy (refresh_token tokens) = true →
  token_reply e (length (calls w)) (TokenRefresh (refresh_token tokens)) = Rejected err →
  ∃ w',
    refreshAccessToken userId e w = (w', Throw RefreshFailed) ∧
    tokenStore w' = delete userId (tokenStore w) ∧
    tokenStore w' !! userId = None ∧
    (∀ e' leads locationId,
       exportLeads leads locationId e' w' = (w', Normal Unauthenticated)) ∧
    (∀ e', getLocations e' w' = (w', Normal Unauthenticated)).
Proof.
  intros Hget Hrt Hreply.
  exists (mkWorld (delete userId (tokenStore w))
            (calls w ++ [TokenRefresh (refresh_token tokens)]) (ticks w)).
  assert (Hgone : delete userId (tokenStore w) !! userId = None)
    by apply lookup_delete_eq.
  split; [now apply refreshAccessToken_rejected with (err := err) |].
  split; [reflexivity |]. split; [exact Hgone |].
  split.
  - intros e' leads locationId. now apply exportLeads_unauthenticated.
  - intros e'. now apply getLocations_unauthenticated.
Qed.

Lemma refresh_failure_purges_witness :
  ∃ w',
    refreshAccessToken userId Examples.revoked Examples.authenticated
    = (w', Throw RefreshFailed) ∧
    tokenStore w' !! userId = None ∧
    exportLeads (JArr [Examples.leadA]) JUndefined Examples.late w'
    = (w', Normal Unauthenticated).
Proof.
  destruct (refresh_failure_purges Examples.revoked Examples.authenticated
              Examples.record
              (mkExn "Request failed with status code 401" JUndefined)
              eq_refl eq_refl eq_refl)
    as (w' & Hrun & _ & Hgone & Hexport & _).
  exists w'. split; [exact Hrun |]. split; [exact Hgone |]. apply Hexport.
Defined.

(** The same failure seen through the export handler: the request that
    finds the token expired is answered with the handler's failure, whose
    details are the RefreshFailed message, and the record is gone. *)
Lemma export_refresh_failure (e : Env) (w : World) (tokens : Tokens) (err : Exn)
    (lead : jsval) (rest : list jsval) (locationId : jsval) :
  tokenStore w !! userId = Some tokens →
  (expires_at tokens ≤ now_at e (ticks w))%Z →
  truthy (refresh_token tokens) = true →
  token_reply e (length (calls w)) (TokenRefresh (refresh_token tokens)) = Rejected err →
  ∃ w',
    exportLeads (JArr (lead :: rest)) locationId e w =
    (w', Normal (Json 500 (JObj [("error", JStr "Failed to export leads");
                                 ("details", JStr "Failed to refresh token")]))) ∧
    tokenStore w' !! userId = None ∧
    calls w' = calls w ++ [TokenRefresh (refresh_token tokens)].
Proof.
  intros Hget Hexp Hrt Hreply.
  eexists. split.
  - unfold exportLeads. rewrite bind_run. unfold tokenStore_get at 1. rewrite Hget.
    cbn [jsnot truthy negb isArray items_of length Nat.eqb orb].
    unfold try_catch. rewrite bind_run.
    rewrite refreshIfExpired_expired by exact Hexp.
    rewrite (refreshAccessToken_rejected userId e (ticked w) tokens err) by assumption.
    reflexivity.
  - simpl. split; [apply lookup_delete_eq | reflexivity].
Qed.

(** ** Refresh if needed *)

(** C4. With the stored record in hand, the token resolution of both
    token-requiring handlers refreshes exactly when the clock reads at or
    past [expires_at]: before expiry it hands on the stored record with no
    upstream call and no change to the store; at or past expiry it calls the
    token endpoint with the stored refresh token (or throws NoRefreshToken
    when there is none).  Whenever it returns, the record it hands on is
    the stored one and expires after the latest clock reading of the call,
    hence after the reading of the expiry check when the clock does not run
    backwards, provided the refresh response carries a positive lifetime. *)
Theorem refresh_exactly_when_expired (uid : string) (e : Env) (w : World)
    (tokens : Tokens) :
  tokenStore w !! uid = Some tokens →
  ((now_at e (ticks w) < expires_at tokens)%Z →
   refreshIfExpired uid tokens e w = (ticked w, Normal (Some tokens))) ∧
  ((expires_at tokens ≤ now_at e (ticks w))%Z →
   truthy (refresh_token tokens) = true →
   ∃ w' c,
     refreshIfExpired uid tokens e w = (w', c) ∧
     calls w' = calls w ++ [TokenRefresh (refresh_token tokens)]) ∧
  ((expires_at tokens ≤ now_at e (ticks w))%Z →
   truthy (refresh_token tokens) = false →
   refreshIfExpired uid tokens e w = (ticked w, Throw NoRefreshToken)) ∧
  (∀ w' o,
     refreshIfExpired uid tokens e w = (w', Normal o) →
     (∀ d, token_reply e (length (calls w)) (TokenRefresh (refresh_token tokens))
           = Resolved d →
           (0 < TokenData.expires_in d)%Z) →
     ∃ t',
       o = Some t' ∧
       tokenStore w' !! uid = Some t' ∧
       (now_at e (ticks w' - 1) < expires_at t')%Z ∧
       ((now_at e (ticks w) ≤ now_at e (ticks w' - 1))%Z →
        (now_at e (ticks w) < expires_at t')%Z)).
Proof.
  intros Hget. split; [| split; [| split]].
  - intros Hfresh. rewrite refreshIfExpired_fresh by exact Hfresh. now rewrite Hget.
  - intros Hexp Hrt. rewrite refreshIfExpired_expired by exact Hexp.
    destruct (token_reply e (length (calls (ticked w)))
                (TokenRefresh (refresh_token tokens))) as [d | err] eqn:Hreply.
    + rewrite (refreshAccessToken_resolved uid e (ticked w) tokens d) by assumption.
      eexists _, _. split; reflexivity.
    + rewrite (refreshAccessToken_rejected uid e (ticked w) tokens err) by assumption.
      eexists _, _. split; reflexivity.
  - intros Hexp Hrt. rewrite refreshIfExpired_expired by exact Hexp.
    now rewrite (refreshAccessToken_no_refresh_token uid e (ticked w) tokens).
  - intros w' o Hrun Hpos.
    destruct (Z.lt_ge_cases (now_at e (ticks w)) (expires_at tokens)) as [Hfresh | Hexp].
    + rewrite refreshIfExpired_fresh in Hrun by exact Hfresh.
      injection Hrun as <- <-. exists tokens. simpl. rewrite Nat.sub_0_r.
      repeat split; try assumption. intros _; exact Hfresh.
    + rewrite refreshIfExpired_expired in Hrun by exact Hexp.
      destruct (truthy (refresh_token tokens)) eqn:Hrt.
      * destruct (token_reply e (length (calls (ticked w)))
                    (TokenRefresh (refresh_token tokens))) as [d | err] eqn:Hreply.
        -- rewrite (refreshAccessToken_resolved uid e (ticked w) tokens d) in Hrun
             by assumption.
           injection Hrun as <- <-. simpl. rewrite lookup_insert_eq.
           eexists. split; [reflexivity |]. split; [reflexivity |].
           specialize (Hpos d Hreply). simpl.
           split; lia.
        -- rewrite (refreshAccessToken_rejected uid e (ticked w) tokens err) in Hrun
             by assumption.
           discriminate.
      * rewrite (refreshAccessToken_no_refresh_token uid e (ticked w) tokens) in Hrun
          by assumption.
        discriminate.
Qed.

Lemma refresh_exactly_when_expired_witness :
  refreshIfExpired userId Examples.record Examples.first_rejected Examples.authenticated
  = (ticked Examples.authenticated, Normal (Some Examples.record)) ∧
  (∃ w' c,
     refreshIfExpired userId Examples.record Examples.late Examples.authenticated
     = (w', c) ∧
     calls w' = [TokenRefresh (JStr "R0")]) ∧
  ∃ t',
    snd (refreshIfExpired userId Examples.record Examples.late Examples.authenticated)
    = Normal (Some t') ∧
    (9000 < expires_at t')%Z.
Proof.
  pose proof (refresh_exactly_when_expired userId Examples.first_rejected
                Examples.authenticated Examples.record eq_refl) as (Hfresh & _).
  pose proof (refresh_exactly_when_expired userId Examples.late
                Examples.authenticated Examples.record eq_refl)
    as (_ & Hexpired & _ & Hinv).
  split; [| split].
  - apply Hfresh. reflexivity.
  - apply Hexpired; [simpl; lia | reflexivity].
  - destruct (Hinv (mkWorld (<[userId := refreshed Examples.record Examples.issued 9001]>
                              (tokenStore Examples.authenticated))
                            [TokenRefresh (JStr "R0")] 2)
                   (Some (refreshed Examples.record Examples.issued 9001)))
      as (t' & Ht' & _ & _ & Hafter).
    + reflexivity.
    + intros d [= <-]. reflexivity.
    + exists t'. split; [now rewrite <- Ht' |]. apply Hafter. simpl. lia.
Defined.

(** ** From authorization to use *)

Lemma oauthCallback_resolved (e : Env) (w : World) (code : jsval) (d : TokenData.t) :
  truthy code = true →
  token_reply e (length (calls w)) (TokenExchange code) = Resolved d →
  oauthCallback code e w =
  (mkWorld (<[userId := issuedRecord d (now_at e (ticks w))]> (tokenStore w))
           (calls w ++ [TokenExchange code]) (S (ticks w)),
   Normal (Redirect (TokenData.locationId d))).
Proof.
  intros Hcode Hreply.
  unfold oauthCallback, jsnot, try_catch, mbind, M_bind, axios_token, upstream.
  rewrite Hcode. cbn. rewrite Hreply. reflexivity.
Qed.

(** An export while the stored token has not expired, whatever [leads] is:
    the store is left alone and the calls are those of the loop. *)
Lemma exportLeads_fresh (e : Env) (w : World) (tokens : Tokens)
    (leads locationId : jsval) :
  tokenStore w !! userId = Some tokens →
  (now_at e (ticks w) < expires_at tokens)%Z →
  ∃ w2 r,
    exportLeads leads locationId e w = (w2, Normal r) ∧
    tokenStore w2 = tokenStore w ∧
    calls w2 = calls w ++
      map (contactRequest tokens (target locationId tokens))
          (loopCalls e tokens (target locationId tokens) (length (calls w))
             (items_of leads)).
Proof.
  intros Hget Hfresh.
  assert (Hbad : (∀ x l, leads ≠ JArr (x :: l)) → items_of leads = [] →
                 ∃ w2 r,
                   exportLeads leads locationId e w = (w2, Normal r) ∧
                   tokenStore w2 = tokenStore w ∧
                   calls w2 = calls w ++
                     map (contactRequest tokens (target locationId tokens))
                         (loopCalls e tokens (target locationId tokens)
                            (length (calls w)) (items_of leads))).
  { intros Hshape ->. exists w, EmptyBatch. split; [| split; [reflexivity |]].
    - now apply exportLeads_no_batch with (tokens := tokens).
    - simpl. now rewrite app_nil_r. }
  destruct leads as [| | b | n | s | [|x l] | fs];
    try (apply Hbad; [discriminate | reflexivity]).
  assert (Hres : refreshIfExpired userId tokens e w = (ticked w, Normal (Some tokens))).
  { rewrite refreshIfExpired_fresh by exact Hfresh. now rewrite Hget. }
  rewrite (exportLeads_run e w (ticked w) tokens tokens x l locationId Hget Hres).
  eexists _, _. split; [reflexivity |]. split; reflexivity.
Qed.

(** C9. A callback whose code exchange succeeds stores a record with the
    issued access token T and expiry E; a token resolution that follows
    while the clock reads before E hands on that record, so T itself, with
    no upstream call and the store untouched; and an export that follows
    leaves the store untouched and calls nothing but the contact endpoint,
    with T as bearer: for a batch of lead records, once per lead. *)
Theorem exchange_then_use (e : Env) (w : World) (code : jsval) (d : TokenData.t) :
  truthy code = true →
  token_reply e (length (calls w)) (TokenExchange code) = Resolved d →
  ∃ w1 rec,
    oauthCallback code e w = (w1, Normal (Redirect (TokenData.locationId d))) ∧
    tokenStore w1 !! userId = Some rec ∧
    access_token rec = TokenData.access_token d ∧
    expires_at rec = (now_at e (ticks w) + TokenData.expires_in d * 1000)%Z ∧
    ((now_at e (ticks w1) < expires_at rec)%Z →
     refreshIfExpired userId rec e w1 = (ticked w1, Normal (Some rec)) ∧
     (∀ leads locationId,
        ∃ w2 r,
          exportLeads leads locationId e w1 = (w2, Normal r) ∧
          tokenStore w2 = tokenStore w1 ∧
          calls w2 = calls w1 ++
            map (λ lead, CreateContact (normalize lead) (TokenData.access_token d)
                           (locationId ||| TokenData.locationId d))
                (loopCalls e rec (locationId ||| TokenData.locationId d)
                   (length (calls w1)) (items_of leads))) ∧
     (∀ leads locationId,
        leads ≠ [] →
        Forall (λ lead, recordable lead = true) leads →
        ∃ w2 body,
          exportLeads (JArr leads) locationId e w1 = (w2, Normal (Json 200 body)) ∧
          tokenStore w2 = tokenStore w1 ∧
          calls w2 = calls w1 ++
            map (λ lead, CreateContact (normalize lead) (TokenData.access_token d)
                           (locationId ||| TokenData.locationId d)) leads)).
Proof.
  intros Hcode Hreply.
  set (rec := issuedRecord d (now_at e (ticks w))).
  set (w1 := mkWorld (<[userId := rec]> (tokenStore w))
               (calls w ++ [TokenExchange code]) (S (ticks w))).
  assert (Hget : tokenStore w1 !! userId = Some rec) by apply lookup_insert_eq.
  exists w1, rec.
  split; [now apply oauthCallback_resolved |].
  split; [exact Hget |]. split; [reflexivity |]. split; [reflexivity |].
  intros Hfresh.
  assert (Hres : refreshIfExpired userId rec e w1 = (ticked w1, Normal (Some rec))).
  { rewrite refreshIfExpired_fresh by exact Hfresh. now rewrite Hget. }
  split; [exact Hres |]. split.
  - intros leads locationId.
    exact (exportLeads_fresh e w1 rec leads locationId Hget Hfresh).
  - intros leads locationId Hne Hleads.
    destruct leads as [|lead rest]; [congruence |].
    rewrite (exportLeads_run e w1 (ticked w1) rec rec lead rest locationId Hget Hres).
    rewrite (loopThrown_recordable e rec _ _ Hleads).
    rewrite (loopCalls_all e rec _ _ _ (loopThrown_recordable e rec _ _ Hleads _)).
    eexists _, _. split; [reflexivity |]. split; reflexivity.
Qed.

Lemma exchange_then_use_witness :
  ∃ w1 rec w2 body,
    oauthCallback (JStr "code-1") Examples.first_rejected Examples.anonymous
    = (w1, Normal (Redirect (JStr "loc-1"))) ∧
    tokenStore w1 !! userId = Some rec ∧
    access_token rec = JStr "T1" ∧
    refreshIfExpired userId rec Examples.first_rejected w1
    = (ticked w1, Normal (Some rec)) ∧
    exportLeads (JArr [Examples.leadB]) JUndefined Examples.first_rejected w1
    = (w2, Normal (Json 200 body)) ∧
    tokenStore w2 = tokenStore w1 ∧
    calls w2 = calls w1 ++
      [CreateContact (normalize Examples.leadB) (JStr "T1") (JStr "loc-1")].
Proof.
  destruct (exchange_then_use Examples.first_rejected Examples.anonymous
              (JStr "code-1") Examples.issued eq_refl eq_refl)
    as (w1 & rec & Hcb & Hget & Hat & Hexp & Huse).
  assert (Hticks : ticks w1 = 1%nat).
  { rewrite (oauthCallback_resolved Examples.first_rejected Examples.anonymous
               (JStr "code-1") Examples.issued eq_refl eq_refl) in Hcb.
    now injection Hcb as <-. }
  destruct Huse as (Hres & _ & Hexport).
  { rewrite Hexp, Hticks. simpl. lia. }
  destruct (Hexport [Examples.leadB] JUndefined) as (w2 & body & Hrun & Hstore & Hcalls).
  { discriminate. }
  { repeat constructor. }
  exists w1, rec, w2, body. repeat split; assumption.
Defined.

(** * Further properties of the code *)

(** ** More on the normalizer *)

Lemma resolve_populated (lead : jsval) (keys : list string) (d : string) :
  truthy (resolve lead keys (JStr d)) = true ∨ resolve lead keys (JStr d) = JStr d.
Proof.
  induction keys as [|k aliases IH]; simpl.
  - now right.
  - destruct (truthy (prop lead k)) eqn:Hk; [now left | exact IH].
Qed.

Lemma truthy_not_nullish (v : jsval) : truthy v = true → nullish v = false.
Proof. now destruct v. Qed.

(** X1. Every resolved field of the contact sent to the CRM is populated:
    it is never [undefined] or [null]; it is a truthy value of the lead or
    the field's default, whatever the lead holds (falsy values such as
    [0], [false], [null] or the empty string are replaced by the default). *)
Theorem normalize_populated (lead : jsval) (f : string) (keys : list string)
    (d : string) :
  (f, (keys, d)) ∈ resolution_order →
  nullish (prop (normalize lead) f) = false ∧
  (truthy (prop (normalize lead) f) = true ∨ prop (normalize lead) f = JStr d).
Proof.
  intros Hin. rewrite (normalize_field lead f keys d Hin).
  destruct (resolve_populated lead keys d) as [Ht | Hd].
  - split; [now apply truthy_not_nullish | now left].
  - split; [now rewrite Hd | now right].
Qed.

Lemma normalize_populated_witness :
  prop (normalize (JObj [("city", JNum 0); ("country", JNull)])) "city" = JStr "" ∧
  prop (normalize (JObj [("city", JNum 0); ("country", JNull)])) "country" = JStr "US".
Proof.
  split.
  - destruct (normalize_populated (JObj [("city", JNum 0); ("country", JNull)])
                "city" ["city"] "") as [_ [Ht | Hd]].
    + apply list_elem_of_In. simpl. tauto.
    + discriminate Ht.
    + exact Hd.
  - destruct (normalize_populated (JObj [("city", JNum 0); ("country", JNull)])
                "country" ["country"] "US") as [_ [Ht | Hd]].
    + apply list_elem_of_In. simpl. tauto.
    + reflexivity.
    + exact Hd.
Defined.

Lemma jsor_default_idem (x d : jsval) : x ||| d ||| d = x ||| d.
Proof. unfold jsor. destruct (truthy x) eqn:Hx; [now rewrite Hx | now destruct (truthy d)]. Qed.

Lemma jsor_default_alias (x d : jsval) : x ||| d ||| JUndefined ||| d = x ||| d.
Proof.
  unfold jsor. destruct (truthy x) eqn:Hx.
  - now rewrite Hx, Hx.
  - destruct (truthy d) eqn:Hd; [now rewrite Hd | reflexivity].
Qed.

(** X2. Normalizing is idempotent: a contact that is already in canonical
    shape is sent on unchanged (the canonical names [address1] and
    [postalCode] are themselves among the keys the normalizer reads). *)
Theorem normalize_idempotent (lead : jsval) :
  normalize (normalize lead) = normalize lead.
Proof.
  unfold normalize at 1.
  cbn [normalize prop assoc String.eqb Ascii.eqb Bool.eqb].
  rewrite !jsor_default_alias, !jsor_default_idem.
  cbn [jsor truthy]. rewrite !jsor_default_idem.
  reflexivity.
Qed.

(** X3. The contact depends on the sixteen keys the normalizer reads and on
    nothing else: two leads that agree on them give the same contact, so no
    other key of a lead ever reaches the CRM. *)
Theorem normalize_reads_only_lead_keys (lead1 lead2 : jsval) :
  Forall (λ k, prop lead1 k = prop lead2 k) lead_keys →
  normalize lead1 = normalize lead2.
Proof.
  unfold lead_keys. rewrite !Forall_cons.
  intros H. destruct_and!. unfold normalize. congruence.
Qed.

Lemma normalize_reads_only_lead_keys_witness :
  normalize (JObj [("email", JStr "a@b"); ("ssn", JStr "123"); ("score", JNum 9)])
  = normalize (JObj [("email", JStr "a@b")]).
Proof.
  apply normalize_reads_only_lead_keys. repeat constructor.
Defined.

(** ** More on the export loop *)

(** X4. A lead that is not an object (a number, a string, a boolean, an
    array) is not refused: it is exported exactly as the empty lead record
    [{}] is, as a contact made of the defaults alone. *)
Theorem nonobject_lead_as_empty (e : Env) (w : World) (o : option Tokens)
    (loc lead : jsval) :
  nullish lead = false →
  isObject lead = false →
  normalize lead = normalize (JObj []) ∧
  exportLead o loc lead e w = exportLead o loc (JObj []) e w.
Proof.
  intros Hnull Hobj. destruct lead; try discriminate; split; reflexivity.
Qed.

Lemma nonobject_lead_as_empty_witness :
  ∃ r,
    exportLead (Some Examples.record) JUndefined (JStr "jo@example.com")
      Examples.late Examples.authenticated
    = (logged Examples.authenticated
         [CreateContact (normalize (JObj [])) (JStr "T0") JUndefined],
       Normal r) ∧
    prop r "success" = JBool true ∧
    prop r "email" = JStr "".
Proof.
  destruct (nonobject_lead_as_empty Examples.late Examples.authenticated
              (Some Examples.record) JUndefined (JStr "jo@example.com")
              eq_refl eq_refl) as [_ Hrun].
  rewrite Hrun. eexists. split; [reflexivity |]. split; reflexivity.
Defined.

(** X5. A [null] element aborts the export: the answer is 500 "Failed to
    export leads" with the thrown error as details and no report of what
    was done, although contacts may have been created already.  The calls
    made are those of an initial part of the leads before the [null]: no
    lead at or after it is attempted. *)
Theorem export_stops_at_null (e : Env) (w w1 : World) (tokens : Tokens)
    (o : option Tokens) (leads : list jsval) (locationId : jsval) :
  tokenStore w !! userId = Some tokens →
  existsb nullish leads = true →
  refreshIfExpired userId tokens e w = (w1, Normal o) →
  ∃ t w2 error made,
    o = Some t ∧
    exportLeads (JArr leads) locationId e w =
    (w2, Normal (Json 500 (JObj [("error", JStr "Failed to export leads");
                                 ("details", details error)]))) ∧
    calls w2 = calls w1 ++ map (contactRequest t (target locationId t)) made ∧
    made = loopCalls e t (target locationId t) (length (calls w1)) leads ∧
    made `prefix_of` attempted leads ∧
    tokenStore w2 = tokenStore w1.
Proof.
  intros Hget Hnull Hrefresh.
  destruct (refreshIfExpired_some _ _ _ _ _ _ Hget Hrefresh) as (t & -> & _).
  destruct leads as [|lead rest]; [discriminate |].
  destruct (loopThrown_null e t (target locationId t) _ Hnull (length (calls w1)))
    as [error Hthrown].
  exists t. eexists _, error, _. split; [reflexivity |].
  split.
  - rewrite (exportLeads_run e w w1 tokens t lead rest locationId Hget Hrefresh).
    now rewrite Hthrown.
  - split; [reflexivity |]. split; [reflexivity |].
    split; [apply loopCalls_prefix | reflexivity].
Qed.

Lemma export_stops_at_null_witness :
  ∃ w2 body,
    exportLeads (JArr [Examples.leadA; JNull; Examples.leadB]) JUndefined
      Examples.late Examples.authenticated
    = (w2, Normal (Json 500 body)) ∧
    prop body "error" = JStr "Failed to export leads" ∧
    prop body "results" = JUndefined ∧
    calls w2 = [TokenRefresh (JStr "R0");
                CreateContact (normalize Examples.leadA) (JStr "T1") (JStr "loc-1")].
Proof.
  destruct (export_stops_at_null Examples.late Examples.authenticated
              (mkWorld (<[userId := refreshed Examples.record Examples.issued 9001]>
                          (tokenStore Examples.authenticated))
                       [TokenRefresh (JStr "R0")] 2)
              Examples.record
              (Some (refreshed Examples.record Examples.issued 9001))
              [Examples.leadA; JNull; Examples.leadB] JUndefined)
    as (t & w2 & error & made & Ht & Hrun & Hcalls & Hmade & _).
  - reflexivity.
  - reflexivity.
  - reflexivity.
  - injection Ht as <-.
    eexists w2, _. split; [exact Hrun |]. split; [reflexivity |].
    split; [reflexivity |].
    rewrite Hcalls, Hmade. reflexivity.
Defined.

Lemma successCount_outcomes (e : Env) (t : Tokens) (loc : jsval) (leads : list jsval) :
  ∀ n,
    successCount (outcomes e t loc n leads)
    = length (filter (λ r, accepted r = true) (replies e t loc n leads)).
Proof.
  unfold successCount.
  induction leads as [|lead rest IH]; intros n; simpl; [reflexivity |].
  rewrite !filter_cons.
  destruct (api_reply e n (contactRequest t loc lead)) as [data | err]; simpl.
  - destruct (nullish data); simpl; now rewrite IH.
  - now rewrite IH.
Qed.

Lemma failureCount_outcomes (e : Env) (t : Tokens) (loc : jsval) (leads : list jsval) :
  ∀ n,
    failureCount (outcomes e t loc n leads)
    = length (filter (λ r, accepted r = false) (replies e t loc n leads)).
Proof.
  unfold failureCount.
  induction leads as [|lead rest IH]; intros n; simpl; [reflexivity |].
  rewrite !filter_cons.
  destruct (api_reply e n (contactRequest t loc lead)) as [data | err]; simpl.
  - destruct (nullish data); simpl; now rewrite IH.
  - now rewrite IH.
Qed.

(** X6. The report counts what the CRM did: its success count is the number
    of contact-creation calls that were answered with a body, its failure
    count the number of the others (rejected, or answered without a body).
    The answer itself is 200 with [success: true] also when every single
    call was rejected. *)
Theorem export_counts (e : Env) (w w1 : World) (tokens : Tokens)
    (o : option Tokens) (leads : list jsval) (locationId : jsval) :
  tokenStore w !! userId = Some tokens →
  leads ≠ [] →
  Forall (λ lead, recordable lead = true) leads →
  refreshIfExpired userId tokens e w = (w1, Normal o) →
  ∃ t w2 body,
    o = Some t ∧
    exportLeads (JArr leads) locationId e w = (w2, Normal (Json 200 body)) ∧
    prop body "success" = JBool true ∧
    prop body "summary" =
      JObj [("total", JNat (length leads));
            ("success",
             JNat (length (filter (λ r, accepted r = true)
                             (replies e t (target locationId t) (length (calls w1)) leads))));
            ("failed",
             JNat (length (filter (λ r, accepted r = false)
                             (replies e t (target locationId t) (length (calls w1)) leads))))].
Proof.
  intros Hget Hne Hleads Hrefresh.
  destruct (refreshIfExpired_some _ _ _ _ _ _ Hget Hrefresh) as (t & -> & _).
  destruct leads as [|lead rest]; [congruence |].
  exists t. eexists _, _. split; [reflexivity |].
  split.
  - rewrite (exportLeads_run e w w1 tokens t lead rest locationId Hget Hrefresh).
    now rewrite (loopThrown_recordable e t _ _ Hleads).
  - split; [reflexivity |].
    cbn [exportReport prop assoc String.eqb Ascii.eqb Bool.eqb].
    now rewrite successCount_outcomes, failureCount_outcomes.
Qed.

(** Every call rejected: the answer is still a 200 report. *)
Lemma export_counts_witness :
  ∃ w2 body,
    exportLeads (JArr [Examples.leadA]) JUndefined
      Examples.first_rejected Examples.authenticated
    = (w2, Normal (Json 200 body)) ∧
    prop body "success" = JBool true ∧
    prop body "summary" =
      JObj [("total", JNat 1); ("success", JNat 0); ("failed", JNat 1)].
Proof.
  destruct (export_counts Examples.first_rejected Examples.authenticated
              (ticked Examples.authenticated) Examples.record (Some Examples.record)
              [Examples.leadA] JUndefined)
    as (t & w2 & body & Ht & Hrun & Hok & Hsum).
  - reflexivity.
  - discriminate.
  - repeat constructor.
  - reflexivity.
  - injection Ht as <-. exists w2, body.
    split; [exact Hrun |]. split; [exact Hok |]. rewrite Hsum. reflexivity.
Defined.

(** ** Handlers and the refresh *)

Lemma refreshIfExpired_refreshed (uid : string) (e : Env) (w : World)
    (tokens : Tokens) (d : TokenData.t) :
  tokenStore w !! uid = Some tokens →
  (expires_at tokens ≤ now_at e (ticks w))%Z →
  truthy (refresh_token tokens) = true →
  token_reply e (length (calls w)) (TokenRefresh (refresh_token tokens)) = Resolved d →
  refreshIfExpired uid tokens e w =
  (mkWorld (<[uid := refreshed tokens d (now_at e (S (ticks w)))]> (tokenStore w))
           (calls w ++ [TokenRefresh (refresh_token tokens)]) (S (S (ticks w))),
   Normal (Some (refreshed tokens d (now_at e (S (ticks w)))))).
Proof.
  intros Hget Hexp Hrt Hreply.
  rewrite refreshIfExpired_expired by exact Hexp.
  rewrite (refreshAccessToken_resolved uid e (ticked w) tokens d) by assumption.
  simpl. now rewrite lookup_insert_eq.
Qed.

Lemma field_some (t : Tokens) (f : Tokens → jsval) (k : string) (e : Env) (w : World) :
  field (Some t) f k e w = (w, Normal (f t)).
Proof. reflexivity. Qed.

(** [getLocations] once the token is resolved to the record [t]. *)
Lemma getLocations_run (e : Env) (w w1 : World) (tokens t : Tokens) :
  tokenStore w !! userId = Some tokens →
  refreshIfExpired userId tokens e w = (w1, Normal (Some t)) →
  getLocations e w =
  (logged w1 [LocationsSearch (access_token t) (company_id t)],
   Normal
     match api_reply e (length (calls w1))
             (LocationsSearch (access_token t) (company_id t)) with
     | Resolved data =>
       if nullish data then
         Json 500 (JObj [("error", JStr "Failed to fetch locations");
                         ("details", details (TypeError "locations"))])
       else
         Json 200 (JObj [("success", JBool true);
                         ("locations", prop data "locations" ||| JArr []);
                         ("current_location", location_id t)])
     | Rejected err =>
       Json 500 (JObj [("error", JStr "Failed to fetch locations");
                       ("details", details err)])
     end).
Proof.
  intros Hget Hrefresh.
  open_handler getLocations. rewrite Hget.
  unfold try_catch. rewrite Hrefresh. cbn [field mret M_ret].
  unfold axios_api, upstream, logged.
  destruct (api_reply e (length (calls w1)) _) as [data | err]; [| reflexivity].
  unfold member. now destruct (nullish data).
Qed.

(** X7. When the stored token has expired and the token endpoint answers
    the refresh, the very request that found it expired goes on with the
    new access token: the export of a batch of lead records sends it as
    bearer of every contact call, the location search sends it too, and the
    store holds the refreshed record afterwards.  The target location still
    falls back to the stored [location_id], which a refresh does not
    change. *)
Theorem handlers_use_refreshed_token (e : Env) (w : World) (tokens : Tokens)
    (d : TokenData.t) :
  tokenStore w !! userId = Some tokens →
  (expires_at tokens ≤ now_at e (ticks w))%Z →
  truthy (refresh_token tokens) = true →
  token_reply e (length (calls w)) (TokenRefresh (refresh_token tokens)) = Resolved d →
  (∀ leads locationId,
     leads ≠ [] →
     Forall (λ lead, recordable lead = true) leads →
     ∃ w2 body,
       exportLeads (JArr leads) locationId e w = (w2, Normal (Json 200 body)) ∧
       calls w2 = calls w ++ TokenRefresh (refresh_token tokens) ::
         map (λ lead, CreateContact (normalize lead) (TokenData.access_token d)
                        (locationId ||| location_id tokens)) leads ∧
       tokenStore w2 !! userId = Some (refreshed tokens d (now_at e (S (ticks w))))) ∧
  (∃ w2 r,
     getLocations e w = (w2, Normal r) ∧
     calls w2 = calls w ++ [TokenRefresh (refresh_token tokens);
                            LocationsSearch (TokenData.access_token d) (company_id tokens)] ∧
     tokenStore w2 !! userId = Some (refreshed tokens d (now_at e (S (ticks w))))).
Proof.
  intros Hget Hexp Hrt Hreply.
  pose proof (refreshIfExpired_refreshed userId e w tokens d Hget Hexp Hrt Hreply)
    as Hres.
  split.
  - intros leads locationId Hne Hleads.
    destruct leads as [|lead rest]; [congruence |].
    rewrite (exportLeads_run e w _ tokens _ lead rest locationId Hget Hres).
    rewrite (loopThrown_recordable e _ _ _ Hleads).
    rewrite (loopCalls_all e _ _ _ _ (loopThrown_recordable e _ _ _ Hleads _)).
    eexists _, _. split; [reflexivity |].
    simpl. split; [now rewrite <- app_assoc | apply lookup_insert_eq].
  - eexists _, _. split.
    + now apply getLocations_run with (tokens := tokens) (2 := Hres).
    + simpl. split; [now rewrite <- app_assoc | apply lookup_insert_eq].
Qed.

Lemma handlers_use_refreshed_token_witness :
  ∃ w2 body,
    exportLeads (JArr [Examples.leadB]) (JStr "loc-9") Examples.late
      Examples.authenticated
    = (w2, Normal (Json 200 body)) ∧
    calls w2 = [TokenRefresh (JStr "R0");
                CreateContact (normalize Examples.leadB) (JStr "T1") (JStr "loc-9")].
Proof.
  destruct (handlers_use_refreshed_token Examples.late Examples.authenticated
              Examples.record Examples.issued) as [Hexport _].
  - reflexivity.
  - simpl. lia.
  - reflexivity.
  - reflexivity.
  - destruct (Hexport [Examples.leadB] (JStr "loc-9")) as (w2 & body & Hrun & Hcalls & _).
    + discriminate.
    + repeat constructor.
    + exists w2, body. split; [exact Hrun |]. rewrite Hcalls. reflexivity.
Defined.

(** X8. A record without a refresh token is a dead end once it has
    expired: the export and the location search both answer 500 with the
    details "No refresh token available", make no upstream call at all and,
    unlike a rejected refresh, keep the record, so every later request
    fails the same way until a new authorization replaces it. *)
Theorem expired_without_refresh_token (e : Env) (w : World) (tokens : Tokens) :
  tokenStore w !! userId = Some tokens →
  (expires_at tokens ≤ now_at e (ticks w))%Z →
  truthy (refresh_token tokens) = false →
  (∀ lead rest locationId,
     ∃ w',
       exportLeads (JArr (lead :: rest)) locationId e w =
       (w', Normal (Json 500 (JObj [("error", JStr "Failed to export leads");
                                    ("details", JStr "No refresh token available")]))) ∧
       tokenStore w' = tokenStore w ∧ calls w' = calls w) ∧
  (∃ w',
     getLocations e w =
     (w', Normal (Json 500 (JObj [("error", JStr "Failed to fetch locations");
                                  ("details", JStr "No refresh token available")]))) ∧
     tokenStore w' = tokenStore w ∧ calls w' = calls w).
Proof.
  intros Hget Hexp Hrt.
  assert (Hres : refreshIfExpired userId tokens e w = (ticked w, Throw NoRefreshToken)).
  { rewrite refreshIfExpired_expired by exact Hexp.
    now rewrite (refreshAccessToken_no_refresh_token userId e (ticked w) tokens). }
  split.
  - intros lead rest locationId. exists (ticked w). split; [| now split].
    unfold exportLeads. rewrite bind_run. unfold tokenStore_get at 1. rewrite Hget.
    cbn [jsnot truthy negb isArray items_of length Nat.eqb orb].
    unfold try_catch. now rewrite bind_run, Hres.
  - exists (ticked w). split; [| now split].
    open_handler getLocations. rewrite Hget. unfold try_catch. now rewrite Hres.
Qed.

Lemma expired_without_refresh_token_witness :
  ∃ w',
    exportLeads (JArr [Examples.leadA]) JUndefined Examples.late
      (mkWorld {[ userId := mkTokens (JStr "T0") JUndefined 5000 JNull JNull JNull ]} [] 0)
    = (w', Normal (Json 500 (JObj [("error", JStr "Failed to export leads");
                                   ("details", JStr "No refresh token available")]))) ∧
    calls w' = [].
Proof.
  destruct (expired_without_refresh_token Examples.late
              (mkWorld {[ userId := mkTokens (JStr "T0") JUndefined 5000 JNull JNull JNull ]}
                       [] 0)
              (mkTokens (JStr "T0") JUndefined 5000 JNull JNull JNull))
    as [Hexport _].
  - reflexivity.
  - simpl. lia.
  - reflexivity.
  - destruct (Hexport Examples.leadA [] JUndefined) as (w' & Hrun & _ & Hcalls).
    exists w'. split; [exact Hrun | exact Hcalls].
Defined.

(** ** The callback *)

(** X9. A callback that does not complete leaves the credentials as they
    were: without a code it answers 400 and calls nobody; when the token
    endpoint rejects the exchange it answers 500 with the upstream's body
    (or the error message) as details, after that one call.  A failed
    re-authorization therefore does not cost the account its old record. *)
Theorem callback_failure_keeps_store (e : Env) (w : World) (code : jsval) :
  (truthy code = false →
   oauthCallback code e w =
   (w, Normal (Json 400 (JObj [("error", JStr "Authorization code not provided")])))) ∧
  (∀ err,
     truthy code = true →
     token_reply e (length (calls w)) (TokenExchange code) = Rejected err →
     ∃ w',
       oauthCallback code e w =
       (w', Normal (Json 500 (JObj [("error", JStr "Failed to exchange authorization code");
                                    ("details", details err)]))) ∧
       tokenStore w' = tokenStore w ∧
       calls w' = calls w ++ [TokenExchange code]).
Proof.
  split.
  - intros Hcode. unfold oauthCallback, jsnot. now rewrite Hcode.
  - intros err Hcode Hreply.
    exists (logged w [TokenExchange code]). split; [| now split].
    unfold oauthCallback, jsnot, try_catch, mbind, M_bind, axios_token, upstream.
    rewrite Hcode. cbn. now rewrite Hreply.
Qed.

Lemma callback_failure_keeps_store_witness :
  oauthCallback (JStr "") Examples.revoked Examples.authenticated
  = (Examples.authenticated,
     Normal (Json 400 (JObj [("error", JStr "Authorization code not provided")]))) ∧
  ∃ w' body,
    oauthCallback (JStr "stale") Examples.revoked Examples.authenticated
    = (w', Normal (Json 500 body)) ∧
    prop body "details" = JStr "Request failed with status code 401" ∧
    tokenStore w' = tokenStore Examples.authenticated.
Proof.
  destruct (callback_failure_keeps_store Examples.revoked Examples.authenticated
              (JStr "")) as [Hmissing _].
  destruct (callback_failure_keeps_store Examples.revoked Examples.authenticated
              (JStr "stale")) as [_ Hrejected].
  split; [now apply Hmissing |].
  destruct (Hrejected (mkExn "Request failed with status code 401" JUndefined)
              eq_refl eq_refl) as (w' & Hrun & Hstore & _).
  exists w'. eexists. split; [exact Hrun |]. split; [reflexivity | exact Hstore].
Defined.

(** X10. A completed callback replaces the record wholesale, and the status
    route reads it back: every field of the stored record comes from the
    token response (nothing of an older record survives, not even its
    refresh token) after one call to the token endpoint, the redirect
    carries the same location as the status answer, and the status answers
    [authenticated] exactly while the clock reads before the new expiry. *)
Theorem callback_then_status (e : Env) (w : World) (code : jsval) (d : TokenData.t) :
  truthy code = true →
  token_reply e (length (calls w)) (TokenExchange code) = Resolved d →
  ∃ w1 rec,
    oauthCallback code e w = (w1, Normal (Redirect (TokenData.locationId d))) ∧
    calls w1 = calls w ++ [TokenExchange code] ∧
    tokenStore w1 !! userId = Some rec ∧
    refresh_token rec = TokenData.refresh_token d ∧
    location_id rec = TokenData.locationId d ∧
    company_id rec = TokenData.companyId d ∧
    scope rec = TokenData.scope d ∧
    ∀ e',
      authStatus e' w1 =
      (ticked w1,
       Normal (Json 200
                 (JObj [("authenticated",
                         JBool (bool_decide (now_at e' (ticks w1) < expires_at rec)%Z));
                        ("location_id", TokenData.locationId d);
                        ("company_id", TokenData.companyId d);
                        ("expires_at",
                         JNum (now_at e (ticks w) + TokenData.expires_in d * 1000))]))).
Proof.
  intros Hcode Hreply.
  set (rec := issuedRecord d (now_at e (ticks w))).
  set (w1 := mkWorld (<[userId := rec]> (tokenStore w))
               (calls w ++ [TokenExchange code]) (S (ticks w))).
  assert (Hget : tokenStore w1 !! userId = Some rec) by apply lookup_insert_eq.
  exists w1, rec. split; [now apply oauthCallback_resolved |].
  split; [reflexivity |].
  split; [exact Hget |]. repeat (split; [reflexivity |]).
  intros e'. open_handler authStatus. rewrite Hget. unfold Date_now. cbn.
  rewrite Z.geb_leb. do 5 f_equal.
  destruct (Z.leb_spec (now_at e (ticks w) + TokenData.expires_in d * 1000)
              (now_at e' (S (ticks w)))).
  - now rewrite bool_decide_eq_false_2 by lia.
  - now rewrite bool_decide_eq_true_2 by lia.
Qed.

Lemma callback_then_status_witness :
  ∃ w1 body,
    oauthCallback (JStr "code-1") Examples.first_rejected Examples.authenticated
    = (w1, Normal (Redirect (JStr "loc-1"))) ∧
    authStatus Examples.first_rejected w1 = (ticked w1, Normal (Json 200 body)) ∧
    prop body "expires_at" = JNum 3601000.
Proof.
  destruct (callback_then_status Examples.first_rejected Examples.authenticated
              (JStr "code-1") Examples.issued eq_refl eq_refl)
    as (w1 & rec & Hcb & _ & _ & _ & _ & _ & _ & Hstatus).
  exists w1. eexists. split; [exact Hcb |]. split; [apply Hstatus | reflexivity].
Defined.

(** ** The location search *)

(** X11. With an unexpired token the location search makes exactly one
    call, carrying the stored access token and company, and leaves the
    store alone.  It answers with the upstream's [locations], with the
    empty list when the answer has none, and with the stored location as
    [current_location]; a rejected call is answered 500 with the
    upstream's body as details. *)
Theorem locations_with_fresh_token (e : Env) (w : World) (tokens : Tokens) :
  tokenStore w !! userId = Some tokens →
  (now_at e (ticks w) < expires_at tokens)%Z →
  ∃ w' r,
    getLocations e w = (w', Normal r) ∧
    tokenStore w' = tokenStore w ∧
    calls w' = calls w ++ [LocationsSearch (access_token tokens) (company_id tokens)] ∧
    (∀ data,
       api_reply e (length (calls w))
         (LocationsSearch (access_token tokens) (company_id tokens)) = Resolved data →
       nullish data = false →
       r = Json 200 (JObj [("success", JBool true);
                           ("locations", prop data "locations" ||| JArr []);
                           ("current_location", location_id tokens)]) ∧
       (truthy (prop data "locations") = false →
        r = Json 200 (JObj [("success", JBool true);
                            ("locations", JArr []);
                            ("current_location", location_id tokens)]))) ∧
    (∀ err,
       api_reply e (length (calls w))
         (LocationsSearch (access_token tokens) (company_id tokens)) = Rejected err →
       r = Json 500 (JObj [("error", JStr "Failed to fetch locations");
                           ("details", details err)])).
Proof.
  intros Hget Hfresh.
  assert (Hres : refreshIfExpired userId tokens e w = (ticked w, Normal (Some tokens))).
  { rewrite refreshIfExpired_fresh by exact Hfresh. now rewrite Hget. }
  eexists _, _. split; [exact (getLocations_run e w (ticked w) tokens tokens Hget Hres) |].
  split; [reflexivity |]. split; [reflexivity |]. simpl. split.
  - intros data -> Hdata. rewrite Hdata. split; [reflexivity |].
    intros Hnone. unfold jsor. now rewrite Hnone.
  - now intros err ->.
Qed.

Lemma locations_with_fresh_token_witness :
  ∃ w',
    getLocations Examples.first_rejected
      (mkWorld {[ userId := Examples.record ]} [TokenExchange (JStr "code-1")] 1)
    = (w', Normal (Json 200 (JObj [("success", JBool true);
                                   ("locations", JArr []);
                                   ("current_location", JStr "loc-1")]))).
Proof.
  destruct (locations_with_fresh_token Examples.first_rejected
              (mkWorld {[ userId := Examples.record ]} [TokenExchange (JStr "code-1")] 1)
              Examples.record)
    as (w' & r & Hrun & _ & _ & Hok & _).
  - reflexivity.
  - simpl. lia.
  - exists w'. rewrite Hrun. do 2 f_equal.
    destruct (Hok Examples.created eq_refl eq_refl) as [_ Hempty].
    now apply Hempty.
Defined.

(** ** Refresh after refresh *)

(** X12. A refreshed record can always be refreshed again: its refresh
    token is truthy (the new one if the response carried one, else the old
    one), so the next refresh does not fail for want of a token but goes to
    the token endpoint with exactly that token. *)
Theorem refresh_keeps_refreshable (uid : string) (e : Env) (w : World)
    (tokens : Tokens) (d : TokenData.t) :
  tokenStore w !! uid = Some tokens →
  truthy (refresh_token tokens) = true →
  token_reply e (length (calls w)) (TokenRefresh (refresh_token tokens)) = Resolved d →
  ∃ w' t',
    refreshAccessToken uid e w = (w', Normal d) ∧
    tokenStore w' !! uid = Some t' ∧
    truthy (refresh_token t') = true ∧
    refresh_token t' = TokenData.refresh_token d ||| refresh_token tokens ∧
    ∀ e', ∃ w'' c,
      refreshAccessToken uid e' w' = (w'', c) ∧
      calls w'' = calls w ++ [TokenRefresh (refresh_token tokens);
                              TokenRefresh (refresh_token t')].
Proof.
  intros Hget Hrt Hreply.
  set (t' := refreshed tokens d (now_at e (ticks w))).
  set (w' := mkWorld (<[uid := t']> (tokenStore w))
               (calls w ++ [TokenRefresh (refresh_token tokens)]) (S (ticks w))).
  assert (Hget' : tokenStore w' !! uid = Some t') by apply lookup_insert_eq.
  assert (Hrt' : truthy (refresh_token t') = true).
  { simpl. unfold jsor. now destruct (truthy (TokenData.refresh_token d)) eqn:Hnew. }
  exists w', t'. split; [now apply refreshAccessToken_resolved |].
  split; [exact Hget' |]. split; [exact Hrt' |]. split; [reflexivity |].
  intros e'.
  destruct (token_reply e' (length (calls w')) (TokenRefresh (refresh_token t')))
    as [d' | err] eqn:Hreply'.
  - rewrite (refreshAccessToken_resolved uid e' w' t' d' Hget' Hrt' Hreply').
    eexists _, _. split; [reflexivity |]. simpl. now rewrite <- app_assoc.
  - rewrite (refreshAccessToken_rejected uid e' w' t' err Hget' Hrt' Hreply').
    eexists _, _. split; [reflexivity |]. simpl. now rewrite <- app_assoc.
Qed.

Lemma refresh_keeps_refreshable_witness :
  ∃ w' t',
    refreshAccessToken userId Examples.late Examples.authenticated
    = (w', Normal Examples.issued) ∧
    tokenStore w' !! userId = Some t' ∧
    refresh_token t' = JStr "R0".
Proof.
  destruct (refresh_keeps_refreshable userId Examples.late Examples.authenticated
              Examples.record Examples.issued eq_refl eq_refl eq_refl)
    as (w' & t' & Hrun & Hget & _ & Hrt & _).
  exists w', t'. split; [exact Hrun |]. split; [exact Hget | exact Hrt].
Defined.

(** ** The lead fetch *)

(** X13. The lead fetch passes the LeadSource's answer through: the [leads]
    of the payload when it has some (an empty array counts), the raw
    payload otherwise, in particular a bare array; a rejected request is
    answered 500 with the upstream's body, or the error message, as
    details.  It never throws and touches neither the token store nor the
    CRM. *)
Theorem d7_leads_pass_through (d7Response : Reply jsval) (e : Env) (w : World) :
  ∃ r,
    getD7Leads d7Response e w = (w, Normal r) ∧
    (∀ data, d7Response = Resolved data → nullish data = false →
       r = Json 200 (JObj [("success", JBool true);
                           ("leads", if truthy (prop data "leads")
                                     then prop data "leads" else data)])) ∧
    (∀ items, d7Response = Resolved (JArr items) →
       r = Json 200 (JObj [("success", JBool true); ("leads", JArr items)])) ∧
    (∀ fs items, d7Response = Resolved (JObj fs) → assoc "leads" fs = JArr items →
       r = Json 200 (JObj [("success", JBool true); ("leads", JArr items)])) ∧
    (∀ data, d7Response = Resolved data → nullish data = true →
       ∃ body, r = Json 500 body ∧ prop body "error" = JStr "Failed to fetch D7 leads") ∧
    (∀ err, d7Response = Rejected err →
       r = Json 500 (JObj [("error", JStr "Failed to fetch D7 leads");
                           ("details", details err)])).
Proof.
  unfold getD7Leads, try_catch, mbind, M_bind, settle, member.
  destruct d7Response as [data | err].
  - destruct (nullish data) eqn:Hdata.
    + eexists. split; [reflexivity |].
      split; [intros ? [= <-]; congruence |].
      split; [intros ? [= ->]; discriminate |].
      split; [intros ? ? [= ->]; discriminate |].
      split; [| discriminate].
      intros ? _ _. eexists. split; reflexivity.
    + eexists. split; [reflexivity |].
      split; [now intros ? [= <-] _ |].
      split; [now intros ? [= ->] |].
      split; [intros ? ? [= ->] Hleads; cbn; unfold jsor; cbn; now rewrite Hleads |].
      split; [intros ? [= <-]; congruence | discriminate].
  - eexists. split; [reflexivity |].
    split; [discriminate |]. split; [discriminate |]. split; [discriminate |].
    split; [discriminate |]. now intros ? [= <-].
Qed.

Lemma d7_leads_pass_through_witness :
  getD7Leads (Resolved (JObj [("leads", JArr []); ("total", JNum 0)]))
    Examples.late Examples.anonymous
  = (Examples.anonymous,
     Normal (Json 200 (JObj [("success", JBool true); ("leads", JArr [])]))).
Proof.
  destruct (d7_leads_pass_through
              (Resolved (JObj [("leads", JArr []); ("total", JNum 0)]))
              Examples.late Examples.anonymous)
    as (r & Hrun & _ & _ & Hleads & _).
  rewrite Hrun. do 2 f_equal.
  apply (Hleads [("leads", JArr []); ("total", JNum 0)] []); reflexivity.
Defined.

(** ** What no handler does *)

Lemma returns_only_ret {A : Type} (P : A → Prop) (a : A) :
  P a → returns_only P (mret a).
Proof. intros Ha e w w' a' [= _ <-]. exact Ha. Qed.

Lemma returns_only_bind {A B : Type} (P : B → Prop) (m : M A) (f : A → M B) :
  (∀ a, returns_only P (f a)) → returns_only P (m ≫= f).
Proof.
  intros Hf e w w' b. rewrite bind_run.
  destruct (m e w) as [w0 [a | x]]; [apply Hf | discriminate].
Qed.

Lemma answers_ret (P : Response → Prop) (r : Response) :
  P r → answers P (mret r).
Proof. intros Hr e w. now exists w, r. Qed.

Lemma answers_try_catch (P : Response → Prop) (body : M Response)
    (handler : Exn → M Response) :
  returns_only P body →
  (∀ error, answers P (handler error)) →
  answers P (try_catch body handler).
Proof.
  intros Hbody Hhandler e w. unfold try_catch.
  destruct (body e w) as [w' [r | x]] eqn:Hrun.
  - exists w', r. split; [reflexivity | now apply (Hbody e w w')].
  - apply Hhandler.
Qed.

Lemma answers_get (P : Response → Prop) (uid : string)
    (k : option Tokens → M Response) :
  (∀ o, answers P (k o)) → answers P (tokenStore_get uid ≫= k).
Proof. intros Hk e w. rewrite bind_run. apply Hk. Qed.

Lemma exportLeadsRoute_parsed (body : jsval) (e : Env) (w : World) :
  nullish body = false →
  exportLeadsRoute body e w
  = exportLeads (prop body "leads") (prop body "locationId") e w.
Proof.
  intros Hbody. unfold exportLeadsRoute.
  now rewrite bind_run, member_run, bind_run, member_run by exact Hbody.
Qed.

Lemma exportLeadsRoute_no_body (body : jsval) (e : Env) (w : World) :
  nullish body = true →
  exportLeadsRoute body e w = (w, Throw (TypeError "leads")).
Proof.
  intros Hbody. unfold exportLeadsRoute.
  now rewrite bind_run, member_nullish by exact Hbody.
Qed.

(** X14. Which exceptions escape a handler: one.  The export reads the
    fields of [req.body] before its first [try], so a request whose body
    was not parsed ([req.body] undefined) makes it throw a TypeError, with
    nothing answered, no call made and the store untouched.  With a parsed
    body the export always answers, with 200, 400, 401 or 500, whatever the
    store, the clock and the upstream services do; the location search
    always answers 200, 401 or 500, the callback redirects (302) or answers
    400 or 500 for every value of the [code] parameter, the status route
    answers 200, and the lead fetch 200 or 500. *)
Theorem handlers_always_answer (body code : jsval) (d7Response : Reply jsval) :
  (nullish body = true →
   ∀ e w, exportLeadsRoute body e w = (w, Throw (TypeError "leads"))) ∧
  (nullish body = false →
   answers (statusIn [200; 400; 401; 500]%Z) (exportLeadsRoute body)) ∧
  answers (statusIn [200; 401; 500]%Z) getLocations ∧
  answers (statusIn [302; 400; 500]%Z) (oauthCallback code) ∧
  answers (statusIn [200]%Z) authStatus ∧
  answers (statusIn [200; 500]%Z) (getD7Leads d7Response).
Proof.
  repeat split.
  - intros Hbody e w. now apply exportLeadsRoute_no_body.
  - intros Hbody.
    assert (Hexport : answers (statusIn [200; 400; 401; 500]%Z)
                        (exportLeads (prop body "leads") (prop body "locationId"))).
    { unfold exportLeads. apply answers_get. intros [tokens |].
      - destruct (_ || _).
        + apply answers_ret. simpl. set_solver.
        + apply answers_try_catch.
          * repeat (apply returns_only_bind; intros ?).
            apply returns_only_ret. simpl. set_solver.
          * intros error. apply answers_ret. simpl. set_solver.
      - apply answers_ret. simpl. set_solver. }
    intros e w. rewrite exportLeadsRoute_parsed by exact Hbody. apply Hexport.
  - unfold getLocations. apply answers_get. intros [tokens |].
    + apply answers_try_catch.
      * repeat (apply returns_only_bind; intros ?).
        apply returns_only_ret. simpl. set_solver.
      * intros error. apply answers_ret. simpl. set_solver.
    + apply answers_ret. simpl. set_solver.
  - unfold oauthCallback. destruct (jsnot code).
    + apply answers_ret. simpl. set_solver.
    + apply answers_try_catch.
      * repeat (apply returns_only_bind; intros ?).
        apply returns_only_ret. simpl. set_solver.
      * intros error. apply answers_ret. simpl. set_solver.
  - unfold authStatus. apply answers_get. intros [tokens |].
    + intros e w. rewrite bind_run. unfold Date_now.
      eexists _, _. split; [reflexivity |]. simpl. set_solver.
    + apply answers_ret. simpl. set_solver.
  - unfold getD7Leads. apply answers_try_catch.
    + repeat (apply returns_only_bind; intros ?).
      apply returns_only_ret. simpl. set_solver.
    + intros error. apply answers_ret. simpl. set_solver.
Qed.

Lemma handlers_always_answer_witness :
  exportLeadsRoute JUndefined Examples.late Examples.authenticated
  = (Examples.authenticated, Throw (TypeError "leads")) ∧
  ∃ w' r,
    exportLeadsRoute (JObj [("leads", JArr [Examples.leadC])])
      Examples.first_rejected Examples.authenticated = (w', Normal r) ∧
    statusIn [200; 400; 401; 500]%Z r.
Proof.
  destruct (handlers_always_answer JUndefined JUndefined (Rejected (Error "offline")))
    as [Hthrows _].
  destruct (handlers_always_answer (JObj [("leads", JArr [Examples.leadC])]) JUndefined
              (Rejected (Error "offline"))) as (_ & Hanswers & _).
  split.
  - now apply Hthrows.
  - now apply Hanswers.
Defined.

Lemma onlyAccount_refl (uid : string) (w : World) : onlyAccount uid w w.
Proof. now intros other _. Qed.

Lemma onlyAccount_trans (uid : string) (w1 w2 w3 : World) :
  onlyAccount uid w1 w2 → onlyAccount uid w2 w3 → onlyAccount uid w1 w3.
Proof. intros H12 H23 other Hne. now rewrite (H23 other Hne), (H12 other Hne). Qed.

Lemma onlyAccount_same_store (uid : string) (w w' : World) :
  tokenStore w' = tokenStore w → onlyAccount uid w w'.
Proof. intros Hstore other _. now rewrite Hstore. Qed.

Section Confined.

Variable uid : string.

Lemma confined_same_store {A : Type} (m : M A) :
  (∀ e w, tokenStore (m e w).1 = tokenStore w) → confined uid m.
Proof. intros Hm e w. apply onlyAccount_same_store, Hm. Qed.

Lemma confined_ret {A : Type} (a : A) : confined uid (mret a).
Proof. now apply confined_same_store. Qed.

Lemma confined_throw {A : Type} (x : Exn) : confined uid (throw (A := A) x).
Proof. now apply confined_same_store. Qed.

Lemma confined_bind {A B : Type} (m : M A) (f : A → M B) :
  confined uid m → (∀ a, confined uid (f a)) → confined uid (m ≫= f).
Proof.
  intros Hm Hf e w. rewrite bind_run.
  specialize (Hm e w). destruct (m e w) as [w' [a | x]]; simpl in *.
  - eapply onlyAccount_trans; [exact Hm | apply Hf].
  - exact Hm.
Qed.

Lemma confined_try_catch {A : Type} (body : M A) (handler : Exn → M A) :
  confined uid body → (∀ error, confined uid (handler error)) →
  confined uid (try_catch body handler).
Proof.
  intros Hbody Hhandler e w. unfold try_catch.
  specialize (Hbody e w). destruct (body e w) as [w' [a | x]]; simpl in *.
  - exact Hbody.
  - eapply onlyAccount_trans; [exact Hbody | apply Hhandler].
Qed.

Lemma confined_get (k : string) : confined uid (tokenStore_get k).
Proof. now apply confined_same_store. Qed.

Lemma confined_now : confined uid Date_now.
Proof. now apply confined_same_store. Qed.

Lemma confined_upstream {A : Type} (service : Env → nat → Request → Reply A)
    (req : Request) :
  confined uid (upstream service req).
Proof.
  apply confined_same_store. intros e w. unfold upstream.
  now destruct (service e (length (calls w)) req).
Qed.

Lemma confined_member (v : jsval) (k : string) : confined uid (member v k).
Proof. apply confined_same_store. intros e w. unfold member. now destruct (nullish v). Qed.

Lemma confined_field (o : option Tokens) (f : Tokens → jsval) (k : string) :
  confined uid (field o f k).
Proof. apply confined_same_store. intros e w. now destruct o. Qed.

Lemma confined_settle {A : Type} (reply : Reply A) : confined uid (settle reply).
Proof. apply confined_same_store. intros e w. now destruct reply. Qed.

Lemma confined_set (v : Tokens) : confined uid (tokenStore_set uid v).
Proof. intros e w other Hne. simpl. now apply lookup_insert_ne. Qed.

Lemma confined_delete : confined uid (tokenStore_delete uid).
Proof. intros e w other Hne. simpl. now apply lookup_delete_ne. Qed.

End Confined.

Create HintDb confined.

#[local] Hint Resolve confined_ret confined_throw confined_get confined_now
  confined_upstream confined_member confined_field confined_settle confined_set
  confined_delete : confined.

Ltac confine :=
  repeat first
    [ apply confined_bind; [| intros ?]
    | apply confined_try_catch; [| intros ?]
    | solve [unfold axios_token, axios_api; auto with confined]
    | match goal with
      | |- confined _ (match ?o with _ => _ end) => destruct o
      | |- confined _ (if ?b then _ else _) => destruct b
      end ].

Lemma refreshAccessToken_confined (uid : string) : confined uid (refreshAccessToken uid).
Proof. unfold refreshAccessToken. confine. Qed.

Lemma refreshIfExpired_confined (uid : string) (tokens : Tokens) :
  confined uid (refreshIfExpired uid tokens).
Proof.
  unfold refreshIfExpired. confine; apply refreshAccessToken_confined.
Qed.

Lemma exportLoop_confined (uid : string) (o : option Tokens) (loc : jsval)
    (leads : list jsval) :
  ∀ results, confined uid (exportLoop o loc leads results).
Proof.
  induction leads as [|lead rest IH]; intros results; simpl.
  - apply confined_ret.
  - apply confined_bind; [| intros r; apply IH].
    apply confined_same_store. intros e w. apply exportLead_keeps_store.
Qed.

(** X15. The handlers act on one account: whatever the request and the
    upstream answers, an export, a location search, a callback, a status
    request or a lead fetch leaves the record of every key other than
    ["default_user"] exactly as it was, and so does [refreshAccessToken]
    for every key other than the one it is called with. *)
Theorem handlers_confined (leads locationId code : jsval) (d7Response : Reply jsval)
    (uid : string) :
  confined userId (exportLeads leads locationId) ∧
  confined userId getLocations ∧
  confined userId (oauthCallback code) ∧
  confined userId authStatus ∧
  confined userId (getD7Leads d7Response) ∧
  confined uid (refreshAccessToken uid).
Proof.
  repeat split.
  - unfold exportLeads. confine;
      first [apply refreshIfExpired_confined | apply exportLoop_confined].
  - unfold getLocations. confine; apply refreshIfExpired_confined.
  - unfold oauthCallback. confine.
  - unfold authStatus. confine.
  - unfold getD7Leads. confine.
  - apply refreshAccessToken_confined.
Qed.

(** A second account's record survives a refresh failure of the first. *)
Lemma handlers_confined_witness :
  tokenStore
    (exportLeads (JArr [Examples.leadA]) JUndefined Examples.revoked
       (mkWorld (<["other_user" := Examples.record]> {[ userId := Examples.record ]})
                [] 0)).1
  !! "other_user" = Some Examples.record.
Proof.
  destruct (handlers_confined (JArr [Examples.leadA]) JUndefined JUndefined
              (Rejected (Error "offline")) userId) as [Hexport _].
  rewrite (Hexport Examples.revoked
             (mkWorld (<["other_user" := Examples.record]> {[ userId := Examples.record ]})
                      [] 0)
             "other_user").
  - reflexivity.
  - discriminate.
Defined.

(** ** The answers of the export, case by case *)

(** X16. Which answer the export gives to a request with a parsed body is
    decided in this order: 401 exactly when there is no record; 400 exactly
    when there is one and [leads] is not a non-empty array; 200, the
    report, exactly when moreover the token resolution returns and the loop
    does not throw (no element is [null], and every lead whose call is
    rejected or answered without a body has an e-mail with a string form);
    and 500 in every case that is left.  Without a parsed body the handler
    throws. *)
Theorem export_status_table (e : Env) (w : World) (body : jsval) :
  (nullish body = true →
   exportLeadsRoute body e w = (w, Throw (TypeError "leads"))) ∧
  (nullish body = false →
   ∃ w' status answer,
     exportLeadsRoute body e w = (w', Normal (Json status answer)) ∧
     (status = 401%Z ↔ tokenStore w !! userId = None) ∧
     (status = 400%Z ↔
      is_Some (tokenStore w !! userId) ∧ ∀ x l, prop body "leads" ≠ JArr (x :: l)) ∧
     (status = 200%Z ↔
      ∃ tokens x l w1 t,
        tokenStore w !! userId = Some tokens ∧
        prop body "leads" = JArr (x :: l) ∧
        refreshIfExpired userId tokens e w = (w1, Normal (Some t)) ∧
        loopThrown e t (target (prop body "locationId") t) (length (calls w1)) (x :: l)
        = None) ∧
     (status = 500%Z ∨ status = 200%Z ∨ status = 400%Z ∨ status = 401%Z)).
Proof.
  split; [apply exportLeadsRoute_no_body |].
  intros Hbody. rewrite exportLeadsRoute_parsed by exact Hbody.
  generalize (prop body "leads") (prop body "locationId"). clear body Hbody.
  intros leads locationId.
  destruct (tokenStore w !! userId) as [tokens |] eqn:Hget.
  - destruct leads as [| | b | n | s | [|x l] | fs];
      try (exists w, 400%Z; eexists;
           split; [apply (exportLeads_no_batch e w tokens); [exact Hget | discriminate] |];
           split; [split; discriminate |];
           split; [split; [split; [eauto | discriminate] | reflexivity] |];
           split; [| auto];
           split; [discriminate | intros (? & ? & ? & ? & ? & _ & ? & _); discriminate]).
    destruct (refreshIfExpired userId tokens e w) as [w1 [o | error]] eqn:Hres.
    + destruct (refreshIfExpired_some _ _ _ _ _ _ Hget Hres) as (t & -> & _).
      pose proof (exportLeads_run e w w1 tokens t x l locationId Hget Hres) as Hrun.
      destruct (loopThrown e t (target locationId t) (length (calls w1)) (x :: l))
        as [error |] eqn:Hthrown.
      * eexists _, _, _. split; [exact Hrun |].
        split; [split; discriminate |].
        split; [split; [discriminate | intros [_ Hshape]; now destruct (Hshape x l)] |].
        split; [| auto].
        split; [discriminate |].
        intros (tokens' & x' & l' & w1' & t' & [= <-] & [= <- <-] & Hres' & Hnone).
        rewrite Hres in Hres'. injection Hres' as <- <-. congruence.
      * eexists _, _, _. split; [exact Hrun |].
        split; [split; discriminate |].
        split; [split; [discriminate | intros [_ Hshape]; now destruct (Hshape x l)] |].
        split; [| auto].
        split; [intros _ | reflexivity].
        exists tokens, x, l, w1, t. auto.
    + eexists _, _, _.
      split; [exact (exportLeads_unresolved e w w1 tokens error x l locationId Hget Hres) |].
      split; [split; discriminate |].
      split; [split; [discriminate | intros [_ Hshape]; now destruct (Hshape x l)] |].
      split; [| auto].
      split; [discriminate |].
      intros (tokens' & ? & ? & ? & ? & [= <-] & _ & Hres' & _). congruence.
  - exists w, 401%Z. eexists. split; [now apply exportLeads_unauthenticated |].
    split; [now split |].
    split; [split; [discriminate | intros [[? ?] _]; discriminate] |].
    split; [| auto].
    split; [discriminate | intros (? & ? & ? & ? & ? & ? & _); discriminate].
Qed.

Lemma export_status_table_witness :
  ∃ w' answer,
    exportLeadsRoute (JObj [("leads", JArr [Examples.leadA])])
      Examples.first_rejected Examples.authenticated
    = (w', Normal (Json 200 answer)).
Proof.
  destruct (export_status_table Examples.first_rejected Examples.authenticated
              (JObj [("leads", JArr [Examples.leadA])]))
    as [_ Htable].
  destruct (Htable eq_refl) as (w' & status & answer & Hrun & _ & _ & H200 & _).
  assert (Hstatus : status = 200%Z).
  { apply H200.
    exists Examples.record, Examples.leadA, [], (ticked Examples.authenticated),
      Examples.record.
    repeat split; reflexivity. }
  subst status. now exists w', answer.
Defined.

(** X17. What the loop does with a rejected call.  When the lead's e-mail
    has a string form it pushes a failure entry, whose [error] is the
    [message] of the upstream's error body when the body has a truthy one,
    and otherwise (no response at all, a body that is a plain string, a
    body without a message) the message of the error itself.  When the
    e-mail has no string form nothing is pushed: the log line throws. *)
Theorem failure_entry_error (e : Env) (w : World) (t : Tokens) (loc lead : jsval)
    (err : Exn) :
  nullish lead = false →
  api_reply e (length (calls w)) (contactRequest t loc lead) = Rejected err →
  (loggable lead = false →
   exportLead (Some t) loc lead e w
   = (logged w [contactRequest t loc lead], Throw ConversionError)) ∧
  (loggable lead = true →
   ∃ r,
     exportLead (Some t) loc lead e w
     = (logged w [contactRequest t loc lead], Normal r) ∧
     prop r "success" = JBool false ∧
     (truthy (prop (response_data err) "message") = true →
      prop r "error" = prop (response_data err) "message") ∧
     (truthy (prop (response_data err) "message") = false →
      prop r "error" = JStr (message err)) ∧
     (isObject (response_data err) = false → prop r "error" = JStr (message err))).
Proof.
  intros Hlead Hreply.
  rewrite exportLead_run by exact Hlead. rewrite Hreply. unfold recorded. simpl.
  split; [now intros -> | intros ->].
  eexists. split; [reflexivity |]. split; [reflexivity |].
  cbn [failureResult prop assoc String.eqb Ascii.eqb Bool.eqb].
  assert (Hopt : optprop (response_data err) "message"
                 = prop (response_data err) "message").
  { unfold optprop. now destruct (response_data err). }
  rewrite Hopt. unfold jsor.
  split; [now intros -> |]. split; [now intros -> |].
  intros Hobj. now destruct (response_data err).
Qed.

Lemma failure_entry_error_witness :
  (∃ r,
     exportLead (Some Examples.record) JUndefined Examples.leadA
       Examples.first_rejected Examples.authenticated
     = (logged Examples.authenticated
          [contactRequest Examples.record JUndefined Examples.leadA], Normal r) ∧
     prop r "error" = JStr "Invalid email") ∧
  exportLead (Some Examples.record) JUndefined Examples.leadC
    Examples.first_rejected Examples.authenticated
  = (logged Examples.authenticated
       [contactRequest Examples.record JUndefined Examples.leadC],
     Throw ConversionError).
Proof.
  destruct (failure_entry_error Examples.first_rejected Examples.authenticated
              Examples.record JUndefined Examples.leadA Examples.invalid_email
              eq_refl eq_refl) as [_ Hentry].
  destruct (failure_entry_error Examples.first_rejected Examples.authenticated
              Examples.record JUndefined Examples.leadC Examples.invalid_email
              eq_refl eq_refl) as [Hthrows _].
  split.
  - destruct (Hentry eq_refl) as (r & Hrun & _ & Hbody & _).
    exists r. split; [exact Hrun |]. now apply Hbody.
  - now apply Hthrows.
Defined.

(** X18. While the stored token has not expired, an export never touches
    the token store and never calls the token endpoint, whatever the parsed
    body holds: the only calls it makes are contact creations, each with
    the stored access token as bearer and the target location, for an
    initial part of the leads before the first [null] (none at all for a
    [leads] that is not an array); the loop stops early only after a lead
    whose failure it cannot log. *)
Theorem export_with_fresh_token (e : Env) (w : World) (tokens : Tokens)
    (body : jsval) :
  tokenStore w !! userId = Some tokens →
  (now_at e (ticks w) < expires_at tokens)%Z →
  nullish body = false →
  ∃ w' r made,
    exportLeadsRoute body e w = (w', Normal r) ∧
    tokenStore w' = tokenStore w ∧
    calls w' = calls w ++
      map (λ lead, CreateContact (normalize lead) (access_token tokens)
                     (prop body "locationId" ||| location_id tokens)) made ∧
    made = loopCalls e tokens (prop body "locationId" ||| location_id tokens)
             (length (calls w)) (items_of (prop body "leads")) ∧
    made `prefix_of` attempted (items_of (prop body "leads")).
Proof.
  intros Hget Hfresh Hbody. rewrite exportLeadsRoute_parsed by exact Hbody.
  destruct (exportLeads_fresh e w tokens (prop body "leads") (prop body "locationId")
              Hget Hfresh) as (w' & r & Hrun & Hstore & Hcalls).
  exists w', r. eexists. split; [exact Hrun |]. split; [exact Hstore |].
  split; [exact Hcalls |]. split; [reflexivity | apply loopCalls_prefix].
Qed.

Lemma export_with_fresh_token_witness :
  ∃ w' r,
    exportLeadsRoute (JObj [("leads", JArr [Examples.leadC; Examples.leadB; JNull])])
      Examples.first_rejected Examples.authenticated = (w', Normal r) ∧
    tokenStore w' = tokenStore Examples.authenticated ∧
    calls w' = [CreateContact (normalize Examples.leadC) (JStr "T0") (JStr "loc-1")].
Proof.
  destruct (export_with_fresh_token Examples.first_rejected Examples.authenticated
              Examples.record
              (JObj [("leads", JArr [Examples.leadC; Examples.leadB; JNull])]))
    as (w' & r & made & Hrun & Hstore & Hcalls & Hmade & _).
  - reflexivity.
  - simpl. lia.
  - reflexivity.
  - exists w', r. split; [exact Hrun |]. split; [exact Hstore |].
    rewrite Hcalls, Hmade. reflexivity.
Defined.

(** X19. For a batch of lead records (no [null], every e-mail with a string
    form) a failure stays with its lead: whatever the CRM answers, the
    export makes exactly one contact-creation call per lead, in input
    order, and answers with the report; the entry of a lead whose call was
    rejected is its failure entry, and the entry of a lead whose call was
    answered with a body is its success entry. *)
Theorem export_isolates_recordable_leads (e : Env) (w w1 : World) (tokens : Tokens)
    (o : option Tokens) (leads : list jsval) (locationId : jsval) :
  tokenStore w !! userId = Some tokens →
  leads ≠ [] →
  Forall (λ lead, recordable lead = true) leads →
  refreshIfExpired userId tokens e w = (w1, Normal o) →
  ∃ t w2 body results,
    o = Some t ∧
    exportLeads (JArr leads) locationId e w = (w2, Normal (Json 200 body)) ∧
    prop body "results" = JArr results ∧
    length results = length leads ∧
    calls w2 = calls w1 ++ map (contactRequest t (target locationId t)) leads ∧
    (∀ i lead err, leads !! i = Some lead →
       api_reply e (length (calls w1) + i) (contactRequest t (target locationId t) lead)
       = Rejected err →
       results !! i = Some (failureResult lead err)) ∧
    (∀ i lead data, leads !! i = Some lead →
       api_reply e (length (calls w1) + i) (contactRequest t (target locationId t) lead)
       = Resolved data →
       nullish data = false →
       results !! i = Some (successResult lead data)).
Proof.
  intros Hget Hne Hleads Hrefresh.
  destruct (refreshIfExpired_some _ _ _ _ _ _ Hget Hrefresh) as (t & -> & _).
  destruct leads as [|lead rest]; [congruence |].
  exists t. eexists _, _,
    (outcomes e t (target locationId t) (length (calls w1)) (lead :: rest)).
  split; [reflexivity |].
  split.
  { rewrite (exportLeads_run e w w1 tokens t lead rest locationId Hget Hrefresh).
    rewrite (loopThrown_recordable e t _ _ Hleads).
    rewrite (loopCalls_all e t _ _ _ (loopThrown_recordable e t _ _ Hleads _)).
    reflexivity. }
  split; [reflexivity |].
  split; [apply outcomes_length |].
  split; [reflexivity |].
  split.
  - intros i x err Hi Hreply.
    rewrite (outcomes_lookup e t _ (lead :: rest) _ i x Hi), Hreply. reflexivity.
  - intros i x data Hi Hreply Hdata.
    rewrite (outcomes_lookup e t _ (lead :: rest) _ i x Hi), Hreply. simpl.
    now rewrite Hdata.
Qed.

(** Leads [A (rejected); B (created)]: both calls are made, the report
    shows A failed and B succeeded. *)
Lemma export_isolates_recordable_leads_witness :
  ∃ w2 body,
    exportLeads (JArr [Examples.leadA; Examples.leadB]) JUndefined
      Examples.first_rejected Examples.authenticated
    = (w2, Normal (Json 200 body)) ∧
    length (calls w2) = 2 ∧
    prop body "results" =
      JArr [failureResult Examples.leadA Examples.invalid_email;
            successResult Examples.leadB Examples.created].
Proof.
  destruct (export_isolates_recordable_leads Examples.first_rejected
              Examples.authenticated (ticked Examples.authenticated) Examples.record
              (Some Examples.record) [Examples.leadA; Examples.leadB] JUndefined)
    as (t & w2 & body & results & Ht & Hrun & Hres & Hlen & Hcalls & Hfail & Hok).
  - reflexivity.
  - discriminate.
  - repeat constructor.
  - reflexivity.
  - injection Ht as <-.
    exists w2, body. split; [exact Hrun |]. split; [now rewrite Hcalls |].
    rewrite Hres. f_equal.
    pose proof (Hfail 0 Examples.leadA Examples.invalid_email eq_refl eq_refl) as H0.
    pose proof (Hok 1 Examples.leadB Examples.created eq_refl eq_refl eq_refl) as H1.
    destruct results as [|r0 [|r1 [|r2 more]]]; try discriminate.
    simpl in H0, H1. now injection H0 as ->; injection H1 as ->.
Defined.
